(** * seelog dispatchers: a shallow embedding of [dispatcher] and its methods

    The Go package [dispatchers] defines the composite node [dispatcher]
    ([createDispatcher], [Dispatch], [Flush], [Close], [Writers],
    [Dispatchers], [String]).  Everything the node calls into lives in other
    packages ([common], [format], [io]) and is taken here as a parameter of
    the development, the class [Externals]: the formatted writer and its
    [Write], the sinks with their optional [Flush] and [Close] methods, and
    the formatter.  The children of a node have the interface type
    [DispatcherInterface]; [dispatcher] is the implementation of it in the
    package, and the children are modelled as nodes of this type.  Fields are
    assigned during construction only, so a node is a finite tree.

    Calls that leave the node are effects.  They are modelled by a small
    state-and-log monad over an abstract [World]: a computation maps the
    world before the call to the returned value, the world after it and the
    list of external calls it performed, in order. *)

From Stdlib Require Import List String Ascii Arith Lia Permutation.
Import ListNotations.
Open Scope string_scope.
Open Scope list_scope.

Set Implicit Arguments.

(** Go's [error] values are represented by their message; [nil] is [None]
    in [option error]. *)
Definition error : Type := string.

(** A Go result pair [(value, error)]. *)
Inductive result (A : Type) : Type :=
| Ok (a : A)
| Err (e : error).
Arguments Ok {A} a.
Arguments Err {A} e.

Definition nl : string := String (ascii_of_nat 10) EmptyString.

(** ** What the package imports

    The node only sees its collaborators through these operations. *)
Class Externals : Type := {
  (** The state of everything outside the dispatcher tree (files, buffers,
      whatever the error callback records, ...). *)
  World : Type;
  (** [io.Writer] values. *)
  Sink : Type;
  (** [*format.Formatter], [*FormattedWriter], [LogLevel], [*LogContext]. *)
  Formatter : Type;
  FormattedWriter : Type;
  LogLevel : Type;
  LogContext : Type;
  (** Pointer comparison on [*FormattedWriter]. *)
  FormattedWriter_eq_dec : forall x y : FormattedWriter, {x = y} + {x <> y};
  (** [NewFormattedWriter(ioWriter, formatter)]. *)
  NewFormattedWriter : Sink -> Formatter -> result FormattedWriter;
  (** [formatWriter.Writer()]. *)
  FormattedWriter_Writer : FormattedWriter -> Sink;
  (** [writer.Write(message, level, context)]. *)
  FormattedWriter_Write :
    FormattedWriter -> string -> LogLevel -> LogContext -> World -> World * option error;
  (** The type assertion [sink.(FlusherInterface)]: the sink's [Flush]
      method when it has one. *)
  asFlusher : Sink -> option (World -> World);
  (** The type assertion [sink.(io.Closer)]: the sink's [Close] method when
      it has one. *)
  asCloser : Sink -> option (World -> World * option error);
  (** [formatter.String()] and the [%s] rendering of a formatted writer. *)
  Formatter_String : Formatter -> string;
  FormattedWriter_String : FormattedWriter -> string
}.

Section Model.
Context `{Externals}.

(** ** External calls and the monad *)

Inductive event : Type :=
| EvWrite (writer : FormattedWriter) (message : string) (level : LogLevel)
          (context : LogContext) (err : option error)
| EvError (err : error)
| EvFlush (s : Sink)
| EvClose (s : Sink) (err : option error).

Record outcome (A : Type) : Type := mkOutcome {
  value : A;
  final : World;
  events : list event
}.

Definition M (A : Type) : Type := World -> outcome A.

Definition ret {A : Type} (a : A) : M A :=
  fun w => mkOutcome a w [].

Definition bind {A B : Type} (m : M A) (k : A -> M B) : M B :=
  fun w =>
    let o1 := m w in
    let o2 := k (value o1) (final o1) in
    mkOutcome (value o2) (final o2) (events o1 ++ events o2).

Notation "x <- m ;; k" := (bind m (fun x => k))
  (at level 61, m at next level, right associativity).
Notation "m ;;; k" := (bind m (fun _ => k))
  (at level 61, right associativity).

Definition callWrite (writer : FormattedWriter) (message : string)
           (level : LogLevel) (context : LogContext) : M (option error) :=
  fun w =>
    let r := FormattedWriter_Write writer message level context w in
    mkOutcome (snd r) (fst r) [EvWrite writer message level context (snd r)].

Definition callError (errorFunc : error -> World -> World) (err : error) : M unit :=
  fun w => mkOutcome tt (errorFunc err w) [EvError err].

Definition callFlush (s : Sink) (flush : World -> World) : M unit :=
  fun w => mkOutcome tt (flush w) [EvFlush s].

Definition callClose (s : Sink) (close : World -> World * option error) : M (option error) :=
  fun w =>
    let r := close w in
    mkOutcome (snd r) (fst r) [EvClose s (snd r)].

(** [for _, x := range xs { body(x) }]. *)
Section Loops.
Variable A : Type.

Section Range.
Variable body : A -> M unit.
Fixpoint forRange (xs : list A) : M unit :=
  match xs with
  | [] => ret tt
  | x :: rest => body x ;;; forRange rest
  end.
End Range.

(** [for _, x := range xs { err := body(x); if err != nil { return err } }]
    followed by falling out of the loop with no error. *)
Section RangeErr.
Variable body : A -> M (option error).
Fixpoint forRangeErr (xs : list A) : M (option error) :=
  match xs with
  | [] => ret None
  | x :: rest =>
      err <- body x ;;
      match err with
      | Some e => ret (Some e)
      | None => forRangeErr rest
      end
  end.
End RangeErr.
End Loops.

(** ** The node *)

#[warnings="-register-all"] Inductive dispatcher : Type :=
  mkDispatcher {
    formatter : Formatter;
    writers : list FormattedWriter;
    dispatchers : list dispatcher
  }.

(** A value of type [interface{}] handed to [createDispatcher], seen
    through the three type assertions the constructor performs on it:
    [receiver.( *FormattedWriter)], [receiver.(io.Writer)] and
    [receiver.(DispatcherInterface)].  Each succeeds or not, depending on
    the dynamic type of the value. *)
Record receiver : Type := mkReceiver {
  asFormattedWriter : option FormattedWriter;
  asIoWriter : option Sink;
  asDispatcherInterface : option dispatcher
}.

Definition NilFormatter : error := "Formatter can not be nil".
Definition EmptyReceivers : error := "Receivers can not be nil or empty".
Definition UnsupportedReceiverType : error :=
  "Method can receive either io.Writer or DispatcherInterface".

(** The body of the [for _, receiver := range receivers] loop of
    [createDispatcher], threading the node under construction. *)
Fixpoint addReceivers (disp : dispatcher) (receivers : list receiver)
  : result dispatcher :=
  match receivers with
  | [] => Ok disp
  | receiver :: rest =>
      match asFormattedWriter receiver with
      | Some writer =>
          addReceivers
            (mkDispatcher (formatter disp) (writers disp ++ [writer]) (dispatchers disp))
            rest
      | None =>
          match asIoWriter receiver with
          | Some ioWriter =>
              match NewFormattedWriter ioWriter (formatter disp) with
              | Err err => Err err
              | Ok writer =>
                  addReceivers
                    (mkDispatcher (formatter disp) (writers disp ++ [writer])
                                  (dispatchers disp))
                    rest
              end
          | None =>
              match asDispatcherInterface receiver with
              | Some dispInterface =>
                  addReceivers
                    (mkDispatcher (formatter disp) (writers disp)
                                  (dispatchers disp ++ [dispInterface]))
                    rest
              | None => Err UnsupportedReceiverType
              end
          end
      end
  end.

(** [formatter] is a pointer and [receivers] a slice: both may be [nil]. *)
Definition createDispatcher (formatter : option Formatter)
           (receivers : option (list receiver)) : result dispatcher :=
  match formatter with
  | None => Err NilFormatter
  | Some formatter =>
      match receivers with
      | None => Err EmptyReceivers
      | Some receivers =>
          if Nat.eqb (List.length receivers) 0 then Err EmptyReceivers
          else addReceivers (mkDispatcher formatter [] []) receivers
      end
  end.

Definition Writers (disp : dispatcher) : list FormattedWriter := writers disp.
Definition Dispatchers (disp : dispatcher) : list dispatcher := dispatchers disp.

(** The body of the loop over the writers in [Dispatch]. *)
Definition deliver (message : string) (level : LogLevel) (context : LogContext)
           (errorFunc : error -> World -> World) (writer : FormattedWriter) : M unit :=
  err <- callWrite writer message level context ;;
  match err with
  | Some e => callError errorFunc e
  | None => ret tt
  end.

Fixpoint Dispatch (disp : dispatcher) (message : string) (level : LogLevel)
         (context : LogContext) (errorFunc : error -> World -> World)
         {struct disp} : M unit :=
  forRange (deliver message level context errorFunc) (writers disp) ;;;
  forRange
    (fun dispInterface => Dispatch dispInterface message level context errorFunc)
    (dispatchers disp).

Definition flushWriter (formatWriter : FormattedWriter) : M unit :=
  match asFlusher (FormattedWriter_Writer formatWriter) with
  | Some flusher => callFlush (FormattedWriter_Writer formatWriter) flusher
  | None => ret tt
  end.

Fixpoint Flush (disp : dispatcher) : M unit :=
  forRange Flush (Dispatchers disp) ;;;
  forRange flushWriter (Writers disp).

Definition closeWriter (formatWriter : FormattedWriter) : M (option error) :=
  flushWriter formatWriter ;;;
  match asCloser (FormattedWriter_Writer formatWriter) with
  | Some closer => callClose (FormattedWriter_Writer formatWriter) closer
  | None => ret None
  end.

(** The body of the loop over the children in [Close]; [close] is the
    child's own [Close]. *)
Definition closeChild (close : dispatcher -> M (option error)) (disp : dispatcher)
  : M (option error) :=
  Flush disp ;;; close disp.

Fixpoint Close (disp : dispatcher) : M (option error) :=
  err <- forRangeErr (closeChild Close) (Dispatchers disp) ;;
  match err with
  | Some e => ret (Some e)
  | None => forRangeErr closeWriter (Writers disp)
  end.

Fixpoint dispatcher_String (disp : dispatcher) : string :=
  (let str := "Formatter: " ++ Formatter_String (formatter disp) ++ nl in
   let str := str ++ "    ->Dispatchers:" in
   let str :=
     if Nat.eqb (List.length (dispatchers disp)) 0 then str ++ "none" ++ nl
     else
       fold_left (fun str disp' => str ++ "        ->" ++ dispatcher_String disp')
                 (dispatchers disp) (str ++ nl) in
   let str := str ++ "    ->Writers:" in
   let str :=
     if Nat.eqb (List.length (writers disp)) 0 then str ++ "none" ++ nl
     else
       fold_left (fun str writer =>
                    str ++ "        ->" ++ FormattedWriter_String writer ++ nl)
                 (writers disp) (str ++ nl) in
   str)%string.


(** ** Reading a rendering *)

(** The strings of a list, one after the other. *)
Definition joined (l : list string) : string :=
  fold_right append EmptyString l.

(** [c] is below [d] in the tree, at any depth. *)
Inductive descendant : dispatcher -> dispatcher -> Prop :=
| descendant_child c d : In c (dispatchers d) -> descendant c d
| descendant_deeper c c' d :
    descendant c c' -> In c' (dispatchers d) -> descendant c d.

Definition is_newline (a : ascii) : bool := Ascii.eqb a (ascii_of_nat 10).
Definition is_space (a : ascii) : bool := Ascii.eqb a (ascii_of_nat 32).

(** The two sections of a rendering, after their titles. *)
Definition dispatchers_section (d : dispatcher) : string :=
  match dispatchers d with
  | [] => ("none" ++ nl)%string
  | cs => (nl ++ joined (map (fun c => "        ->" ++ dispatcher_String c) cs))%string
  end.

Definition writers_section (d : dispatcher) : string :=
  match writers d with
  | [] => ("none" ++ nl)%string
  | ws =>
      (nl ++ joined (map (fun wr => "        ->" ++ FormattedWriter_String wr ++ nl) ws))%string
  end.

(** The lines of a text; a final newline ends the last line. *)
Fixpoint lines (s : string) : list string :=
  match s with
  | EmptyString => []
  | String a rest =>
      if is_newline a then EmptyString :: lines rest
      else match lines rest with
           | [] => [String a EmptyString]
           | l :: ls => String a l :: ls
           end
  end.

(** The number of spaces a line starts with, and the line without them. *)
Fixpoint indent (s : string) : nat :=
  match s with
  | String a rest => if is_space a then S (indent rest) else 0
  | EmptyString => 0
  end.

Fixpoint strip (s : string) : string :=
  match s with
  | String a rest => if is_space a then strip rest else s
  | EmptyString => s
  end.

(** The lines on which the description of a dispatcher begins: 
    [Formatter: ...] for the rendered node itself, [->Formatter: ...] for a
    nested one. *)
Definition is_header (line : string) : bool :=
  (String.prefix "Formatter: " (strip line)
   || String.prefix "->Formatter: " (strip line))%bool.

(** The indentation of the header lines, from top to bottom.  In the
    rendering of a chain of nested dispatchers the headers come in nesting
    order, so indentation that grows with the nesting depth makes this list
    strictly increasing. *)
Definition header_indents (text : string) : list nat :=
  map indent (filter is_header (lines text)).

Fixpoint strictly_increasing (l : list nat) : bool :=
  match l with
  | a :: (b :: _) as rest => (a <? b)%nat && strictly_increasing rest
  | _ => true
  end.

(** ** A caller's use of one node

    None of the three methods assigns a field of its receiver, so the node
    is an argument of the computations and not part of what they thread.
    A history is any sequence of calls a caller makes on one node. *)
Inductive method : Type :=
| DoDispatch (message : string) (level : LogLevel) (context : LogContext)
             (errorFunc : error -> World -> World)
| DoFlush
| DoClose.

Definition invoke (disp : dispatcher) (c : method) : M unit :=
  match c with
  | DoDispatch message level context errorFunc =>
      Dispatch disp message level context errorFunc
  | DoFlush => Flush disp
  | DoClose => _ <- Close disp ;; ret tt
  end.

Definition history (disp : dispatcher) (calls : list method) : M unit :=
  forRange (invoke disp) calls.

(** ** Construction, as described

    What one receiver contributes to the node, by the priority of the three
    type assertions. *)
Inductive stored : Type :=
| StoredWriter (writer : FormattedWriter)
| StoredChild (child : dispatcher).

Definition store_of (f : Formatter) (r : receiver) : result stored :=
  match r with
  | mkReceiver (Some writer) _ _ => Ok (StoredWriter writer)
  | mkReceiver None (Some ioWriter) _ =>
      match NewFormattedWriter ioWriter f with
      | Ok writer => Ok (StoredWriter writer)
      | Err err => Err err
      end
  | mkReceiver None None (Some child) => Ok (StoredChild child)
  | mkReceiver None None None => Err UnsupportedReceiverType
  end.

Definition writers_in (sts : list stored) : list FormattedWriter :=
  flat_map (fun st => match st with StoredWriter wr => [wr] | StoredChild _ => [] end) sts.

Definition children_in (sts : list stored) : list dispatcher :=
  flat_map (fun st => match st with StoredChild c => [c] | StoredWriter _ => [] end) sts.

(** A receiver is writer-like when it is a formatted writer or an
    [io.Writer], dispatcher-like when it is neither but a dispatcher. *)
Definition writer_like (r : receiver) : bool :=
  match asFormattedWriter r, asIoWriter r with
  | None, None => false
  | _, _ => true
  end.

Definition dispatcher_like (r : receiver) : bool :=
  match asFormattedWriter r, asIoWriter r, asDispatcherInterface r with
  | None, None, Some _ => true
  | _, _, _ => false
  end.

(** ** Call sequences read off the tree

    These follow the prose description of the traversals; the theorems
    below compare them with what the methods do. *)

(** Own writers first, then each child's writers, depth-first. *)
Fixpoint dispatch_order (disp : dispatcher) : list FormattedWriter :=
  writers disp ++ flat_map dispatch_order (dispatchers disp).

Definition flushable (s : Sink) : bool :=
  match asFlusher s with Some _ => true | None => false end.

Definition closable (s : Sink) : bool :=
  match asCloser s with Some _ => true | None => false end.

(** Children first, then the own sinks that can be flushed. *)
Fixpoint flush_order (disp : dispatcher) : list Sink :=
  flat_map flush_order (dispatchers disp)
  ++ filter flushable (map FormattedWriter_Writer (writers disp)).

(** Every sink reachable from a node, own writers included. *)
Fixpoint sinks (disp : dispatcher) : list Sink :=
  map FormattedWriter_Writer (writers disp) ++ flat_map sinks (dispatchers disp).

(** A call on a sink, without its result. *)
Inductive sinkCall : Type :=
| CallFlush (s : Sink)
| CallClose (s : Sink).

Definition teardown_writer (formatWriter : FormattedWriter) : list sinkCall :=
  (if flushable (FormattedWriter_Writer formatWriter) then [CallFlush (FormattedWriter_Writer formatWriter)] else [])
  ++ (if closable (FormattedWriter_Writer formatWriter) then [CallClose (FormattedWriter_Writer formatWriter)] else []).

(** The full teardown: each child flushed and then closed, then each own
    sink flushed if it can be and closed if it can be. *)
Fixpoint close_order (disp : dispatcher) : list sinkCall :=
  flat_map (fun c => map CallFlush (flush_order c) ++ close_order c) (dispatchers disp)
  ++ flat_map teardown_writer (writers disp).

(** The effect on the world of flushing a list of sinks one after the
    other. *)
Definition run_flushes (l : list Sink) (w : World) : World :=
  fold_left (fun w s => match asFlusher s with
                        | Some flusher => flusher w
                        | None => w
                        end) l w.

(** ** Projections of a log *)

Definition written (t : list event)
  : list (FormattedWriter * string * LogLevel * LogContext) :=
  flat_map (fun ev => match ev with
                      | EvWrite wr m l c _ => [(wr, m, l, c)]
                      | _ => []
                      end) t.

(** The errors handed to the callback. *)
Definition reported (t : list event) : list error :=
  flat_map (fun ev => match ev with EvError e => [e] | _ => [] end) t.

(** The errors returned by [Write]. *)
Definition failures (t : list event) : list error :=
  flat_map (fun ev => match ev with
                      | EvWrite _ _ _ _ (Some e) => [e]
                      | _ => []
                      end) t.

Definition sink_calls (t : list event) : list sinkCall :=
  flat_map (fun ev => match ev with
                      | EvFlush s => [CallFlush s]
                      | EvClose s _ => [CallClose s]
                      | _ => []
                      end) t.

(** [N] successive calls of [Dispatch] on one tree, one per log event. *)
Definition dispatchAll (disp : dispatcher)
           (errorFunc : error -> World -> World)
           (msgs : list (string * LogLevel * LogContext)) : M unit :=
  forRange (fun msg => Dispatch disp (fst (fst msg)) (snd (fst msg)) (snd msg) errorFunc)
           msgs.

(** The log events a given writer accepted: its [Write] was called with
    them and returned no error. *)
Definition received_by (W : FormattedWriter) (t : list event)
  : list (string * LogLevel * LogContext) :=
  flat_map (fun ev => match ev with
                      | EvWrite wr m l c None =>
                          if FormattedWriter_eq_dec wr W then [(m, l, c)] else []
                      | _ => []
                      end) t.

(** One mark per call of the error callback. *)
Definition callback_marks (t : list event) : list unit :=
  flat_map (fun ev => match ev with EvError _ => [tt] | _ => [] end) t.

Definition callback_count (t : list event) : nat := List.length (callback_marks t).

(** A log in which every [Write] is followed at once by the callback when,
    and only when, it returned an error. *)
Inductive delivered : list event -> Prop :=
| delivered_nil : delivered []
| delivered_ok wr m l c t :
    delivered t -> delivered (EvWrite wr m l c None :: t)
| delivered_fail wr m l c e t :
    delivered t -> delivered (EvWrite wr m l c (Some e) :: EvError e :: t).

Definition is_flush (ev : event) : Prop :=
  match ev with EvFlush _ => True | _ => False end.

Definition close_failed (ev : event) : Prop :=
  match ev with EvClose _ (Some _) => True | _ => False end.

Definition no_close_failure (t : list event) : Prop :=
  Forall (fun ev => ~ close_failed ev) t.

(** The log ends with the close that returned [e], and no close before it
    returned an error. *)
Definition fails_last (e : error) (t : list event) : Prop :=
  exists pre s, t = pre ++ [EvClose s (Some e)] /\ no_close_failure pre.

(** The returned error is that of the first failed close, and that close is
    the last thing done. *)
Definition fail_fast (o : outcome (option error)) : Prop :=
  match value o with
  | Some e => fails_last e (events o)
  | None => no_close_failure (events o)
  end.

Definition is_sink_call (ev : event) : Prop :=
  match ev with
  | EvFlush _ => True
  | EvClose _ _ => True
  | _ => False
  end.

(** A log in which every close of a sink that can be flushed comes right
    after a flush of that sink. *)
Inductive flush_first : list event -> Prop :=
| flush_first_nil : flush_first []
| flush_first_pair s r t :
    flush_first t -> flush_first (EvFlush s :: EvClose s r :: t)
| flush_first_other ev t :
    match ev with EvClose s _ => flushable s = false | _ => True end ->
    flush_first t -> flush_first (ev :: t).

(** The sink calls of [o] are an initial part of [full], and all of it when
    [o] returned no error. *)
Definition runs_along (o : outcome (option error)) (full : list sinkCall) : Prop :=
  exists rest,
    sink_calls (events o) ++ rest = full /\ (value o = None -> rest = []).

(** The sink is flushed at two places of the log at least. *)
Definition flushed_twice (s : Sink) (t : list event) : Prop :=
  exists a b c, t = a ++ EvFlush s :: b ++ EvFlush s :: c.

(** Every close of the sink has two flushes of it before. *)
Definition twice_before_close (s : Sink) (t : list event) : Prop :=
  forall pre r post, t = pre ++ EvClose s r :: post -> flushed_twice s pre.

(** ** The teardown as a flat program

    One call of [close_order], performed on the world: a flush has no
    result, a close returns its error. *)
Definition runCall (c : sinkCall) : M (option error) :=
  match c with
  | CallFlush s =>
      match asFlusher s with
      | Some flusher => callFlush s flusher ;;; ret None
      | None => ret None
      end
  | CallClose s =>
      match asCloser s with
      | Some closer => callClose s closer
      | None => ret None
      end
  end.

(** What follows an iteration of a loop with early exit. *)
Definition stopOrGo (rest : M (option error)) (err : option error) : M (option error) :=
  match err with
  | Some e => ret (Some e)
  | None => rest
  end.

(** The calls of a list one after the other, up to the first close that
    returns an error. *)
Definition run_calls (l : list sinkCall) : M (option error) :=
  forRangeErr runCall l.

Definition is_stored_writer (st : stored) : bool :=
  match st with StoredWriter _ => true | StoredChild _ => false end.

Definition is_stored_child (st : stored) : bool :=
  match st with StoredWriter _ => false | StoredChild _ => true end.

(** ** The synchronous logger

    Of [SyncLogger] only what its [Close] and [Flush] read is kept: the
    configuration it embeds through [commonLogger], and of the configuration
    the root dispatcher. *)
Record LogConfig : Type := mkLogConfig {
  RootDispatcher : dispatcher
}.

Record SyncLogger : Type := mkSyncLogger {
  config : LogConfig
}.

(** [syncLogger.config.RootDispatcher.Close()] as a statement: the returned
    error is not looked at. *)
Definition SyncLogger_Close (syncLogger : SyncLogger) : M unit :=
  _ <- Close (RootDispatcher (config syncLogger)) ;; ret tt.

Definition SyncLogger_Flush (syncLogger : SyncLogger) : M unit :=
  Flush (RootDispatcher (config syncLogger)).

(** ** The effect of a dispatch, as described

    What writing one event to one writer does: the write is applied to the
    world and, when it returns an error, the callback is applied to the
    world the write left. *)
Definition write_step (message : string) (level : LogLevel) (context : LogContext)
           (errorFunc : error -> World -> World) (w : World) (writer : FormattedWriter)
  : World :=
  match snd (FormattedWriter_Write writer message level context w) with
  | Some e => errorFunc e (fst (FormattedWriter_Write writer message level context w))
  | None => fst (FormattedWriter_Write writer message level context w)
  end.

Definition write_log (message : string) (level : LogLevel) (context : LogContext)
           (w : World) (writer : FormattedWriter) : list event :=
  match snd (FormattedWriter_Write writer message level context w) with
  | Some e => [EvWrite writer message level context (Some e); EvError e]
  | None => [EvWrite writer message level context None]
  end.

(** The world after writing the event to the writers of a list in turn, and
    the calls made on the way. *)
Definition deliveries_world (message : string) (level : LogLevel) (context : LogContext)
           (errorFunc : error -> World -> World) (ws : list FormattedWriter) (w : World)
  : World :=
  fold_left (write_step message level context errorFunc) ws w.

Fixpoint deliveries_log (message : string) (level : LogLevel) (context : LogContext)
         (errorFunc : error -> World -> World) (ws : list FormattedWriter) (w : World)
  : list event :=
  match ws with
  | [] => []
  | writer :: rest =>
      write_log message level context w writer
      ++ deliveries_log message level context errorFunc rest
                        (write_step message level context errorFunc w writer)
  end.

(** ** The effect of a teardown, as described

    The calls of a list applied to the world one after the other: a flush
    changes the world, a close changes it and may return an error, which
    ends the teardown there. *)
Fixpoint perform (l : list sinkCall) (w : World) : outcome (option error) :=
  match l with
  | [] => mkOutcome None w []
  | CallFlush s :: rest =>
      match asFlusher s with
      | Some flusher =>
          mkOutcome (value (perform rest (flusher w)))
                    (final (perform rest (flusher w)))
                    (EvFlush s :: events (perform rest (flusher w)))
      | None => perform rest w
      end
  | CallClose s :: rest =>
      match asCloser s with
      | Some closer =>
          match snd (closer w) with
          | Some e => mkOutcome (Some e) (fst (closer w)) [EvClose s (Some e)]
          | None =>
              mkOutcome (value (perform rest (fst (closer w))))
                        (final (perform rest (fst (closer w))))
                        (EvClose s None :: events (perform rest (fst (closer w))))
          end
      | None => perform rest w
      end
  end.

(** ** The node a call leaves behind

    The receiver of the three methods is a pointer, so a method could assign
    the node's fields.  None of the three bodies contains an assignment to
    [disp] or to a field of it: the node a call leaves behind, which is the
    node the caller's next call is made on, is the one it was called on. *)
Definition invoke_on (disp : dispatcher) (c : method) : M dispatcher :=
  invoke disp c ;;; ret disp.

Fixpoint serve (disp : dispatcher) (calls : list method) : M dispatcher :=
  match calls with
  | [] => ret disp
  | c :: rest => disp' <- invoke_on disp c ;; serve disp' rest
  end.

(** ** Counting the calls on one sink

    Interface values holding sinks can be compared; the comparison is an
    argument. *)
Section PerSink.
Variable Sink_eq_dec : forall x y : Sink, {x = y} + {x <> y}.

Definition is_flush_of (s : Sink) (c : sinkCall) : bool :=
  match c with
  | CallFlush s' => if Sink_eq_dec s' s then true else false
  | CallClose _ => false
  end.

Definition is_close_of (s : Sink) (c : sinkCall) : bool :=
  match c with
  | CallFlush _ => false
  | CallClose s' => if Sink_eq_dec s' s then true else false
  end.

(** How many of the own writers of a node write to the sink. *)
Definition own_uses (s : Sink) (disp : dispatcher) : nat :=
  count_occ Sink_eq_dec (map FormattedWriter_Writer (writers disp)) s.

(** Each writer on the sink counted [k + 1] times when its node lies [k]
    levels down. *)
Fixpoint flush_weight (s : Sink) (k : nat) (disp : dispatcher) : nat :=
  S k * own_uses s disp + list_sum (map (flush_weight s (S k)) (dispatchers disp)).
End PerSink.

(** ** Trees that construction can produce

    [createDispatcher] is the only function of the package that makes a
    node, and the children it stores were made before it. *)
Inductive constructed : dispatcher -> Prop :=
| constructed_by f receivers d :
    createDispatcher (Some f) (Some receivers) = Ok d ->
    (forall c, In c (dispatchers d) -> constructed c) ->
    constructed d.

(** ** Induction over the tree *)

Section TreeInduction.
Variable P : dispatcher -> Prop.
Hypothesis step :
  forall f ws cs, Forall P cs -> P (mkDispatcher f ws cs).

Fixpoint dispatcher_tree_ind (d : dispatcher) : P d :=
  match d with
  | mkDispatcher f ws cs =>
      step f ws
           ((fix go (l : list dispatcher) : Forall P l :=
               match l with
               | [] => Forall_nil P
               | c :: l' => Forall_cons c (dispatcher_tree_ind c) (go l')
               end) cs)
  end.
End TreeInduction.

End Model.

(** ** Concrete collaborators

    Sinks and writers are numbered; a writer writes to the sink of its
    number.  Writers with an odd number fail every write.  Sinks below 10
    can be flushed, sinks below 20 can be closed, and closing sink 7 fails.
    The world is the journal of what the sinks and the error callback were
    made to do. *)
Definition ex_externals : Externals :=
  {| World := list string;
     Sink := nat;
     Formatter := string;
     FormattedWriter := nat;
     LogLevel := nat;
     LogContext := unit;
     FormattedWriter_eq_dec := Nat.eq_dec;
     NewFormattedWriter := fun s _ => Ok s;
     FormattedWriter_Writer := fun fw => fw;
     FormattedWriter_Write :=
       fun fw m _ _ w =>
         if Nat.odd fw then (w, Some "write failed") else (w ++ [m], None);
     asFlusher :=
       fun s => if Nat.ltb s 10 then Some (fun w => w ++ ["flush"]) else None;
     asCloser :=
       fun s =>
         if Nat.eqb s 7 then Some (fun w => (w, Some "close failed"))
         else if Nat.ltb s 20 then Some (fun w => (w ++ ["close"], None))
         else None;
     Formatter_String := fun f => f;
     FormattedWriter_String := fun _ => "writer" |}.

Section Examples.
Local Existing Instance ex_externals.

Definition ex_errorFunc : error -> World -> World := fun e w => w ++ [e].

Definition ex_leaf (fw : nat) : dispatcher := mkDispatcher "leaf" [fw] [].

(** Writer 1 always fails, writer 2 never does. *)
Definition ex_tree : dispatcher := mkDispatcher "root" [1] [ex_leaf 2].

Definition ex_msgs : list (string * LogLevel * LogContext) :=
  [("a", 0, tt); ("b", 1, tt)].

(** One writer and one child, all sinks flushable and closable. *)
Definition ex_parent : dispatcher := mkDispatcher "root" [2] [ex_leaf 3].

(** [ex_parent] with other formatters. *)
Definition ex_renamed : dispatcher :=
  mkDispatcher "other" [2] [mkDispatcher "below" [3] []].

(** Every writer succeeds. *)
Definition ex_even : dispatcher := mkDispatcher "root" [2] [ex_leaf 4].

(** The tree [ex_tree] without its nesting. *)
Definition ex_flat : dispatcher := mkDispatcher "flat" [1; 2] [].

(** The second child's sink cannot be closed. *)
Definition ex_bad_child : dispatcher :=
  mkDispatcher "root" [2] [ex_leaf 3; ex_leaf 7; ex_leaf 4].

(** A logger over a tree whose teardown fails. *)
Definition ex_logger : SyncLogger := mkSyncLogger (mkLogConfig ex_bad_child).

(** The second writer's sink cannot be closed. *)
Definition ex_bad_writer : dispatcher :=
  mkDispatcher "root" [2; 7; 4] [ex_leaf 3].

(** No sink has a flush method. *)
Definition ex_unflushable : dispatcher := mkDispatcher "root" [12] [ex_leaf 25].

(** Root, child and grandchild. *)
Definition ex_grandchild : dispatcher := mkDispatcher "F2" [2] [].
Definition ex_child : dispatcher := mkDispatcher "F1" [] [ex_grandchild].
Definition ex_chain : dispatcher := mkDispatcher "F0" [] [ex_child].

Definition ex_writer_receiver (fw : nat) : receiver := mkReceiver (Some fw) None None.
Definition ex_child_receiver (c : dispatcher) : receiver := mkReceiver None None (Some c).

(** A formatted writer followed by a value that passes no type assertion. *)
Definition ex_unsupported : list receiver :=
  [ex_writer_receiver 1; mkReceiver None None None].

(** A formatted writer, a dispatcher, and a value that is both an
    [io.Writer] and a dispatcher. *)
Definition ex_receivers : list receiver :=
  [mkReceiver (Some 1) None None;
   mkReceiver None None (Some (ex_leaf 3));
   mkReceiver None (Some 2) (Some (ex_leaf 4))].

End Examples.

(** ** Sinks that refuse a second close

    Every sink can be flushed and closed; the world is the list of the sinks
    closed so far, and closing a sink of the list returns an error, as
    closing a closed file does. *)
Definition ex_strict_externals : Externals :=
  {| World := list nat;
     Sink := nat;
     Formatter := string;
     FormattedWriter := nat;
     LogLevel := nat;
     LogContext := unit;
     FormattedWriter_eq_dec := Nat.eq_dec;
     NewFormattedWriter := fun s _ => Ok s;
     FormattedWriter_Writer := fun fw => fw;
     FormattedWriter_Write := fun _ _ _ _ w => (w, None);
     asFlusher := fun _ => Some (fun w => w);
     asCloser :=
       fun s =>
         Some (fun w => if existsb (Nat.eqb s) w
                        then (w, Some "file already closed")
                        else (s :: w, None));
     Formatter_String := fun f => f;
     FormattedWriter_String := fun _ => "writer" |}.

Section StrictExamples.
Local Existing Instance ex_strict_externals.

Definition ex_strict_leaf : dispatcher := mkDispatcher "leaf" [3] [].
Definition ex_strict_parent : dispatcher := mkDispatcher "root" [2] [ex_strict_leaf].

End StrictExamples.

Section Theory.
Context `{Externals}.

(** ** The two loops *)

Section LoopLemmas.
Variable A : Type.

Lemma forRange_closed (P : list event -> Prop) (body : A -> M unit) xs :
  P [] ->
  (forall a b, P a -> P b -> P (a ++ b)) ->
  Forall (fun x => forall w, P (events (body x w))) xs ->
  forall w, P (events (forRange body xs w)).
Proof.
  intros Hnil Happ HF; induction HF as [|x xs Hx _ IH]; intros w; simpl.
  - exact Hnil.
  - apply Happ; [apply Hx | apply IH].
Qed.

Lemma forRange_proj (X : Type) (p : event -> list X) (g : A -> list X)
      (body : A -> M unit) xs :
  Forall (fun x => forall w, flat_map p (events (body x w)) = g x) xs ->
  forall w, flat_map p (events (forRange body xs w)) = flat_map g xs.
Proof.
  intros HF; induction HF as [|x xs Hx _ IH]; intros w; simpl.
  - reflexivity.
  - rewrite flat_map_app, Hx, IH. reflexivity.
Qed.

Lemma forRangeErr_closed (P : list event -> Prop) (body : A -> M (option error)) xs :
  P [] ->
  (forall a b, P a -> P b -> P (a ++ b)) ->
  Forall (fun x => forall w, P (events (body x w))) xs ->
  forall w, P (events (forRangeErr body xs w)).
Proof.
  intros Hnil Happ HF; induction HF as [|x xs Hx _ IH]; intros w; simpl.
  - exact Hnil.
  - apply Happ; [apply Hx |].
    destruct (value (body x w)); simpl; [exact Hnil | apply IH].
Qed.

End LoopLemmas.


Lemma forRange_events (A : Type) (g : A -> list event) (body : A -> M unit) xs :
  Forall (fun x => forall w, events (body x w) = g x) xs ->
  forall w, events (forRange body xs w) = flat_map g xs.
Proof.
  intros HF; induction HF as [|x xs Hx _ IH]; intros w; simpl.
  - reflexivity.
  - rewrite Hx, IH. reflexivity.
Qed.

(** ** Flush *)

Lemma flushWriter_events fw w :
  events (flushWriter fw w)
  = map EvFlush (filter flushable [FormattedWriter_Writer fw]).
Proof.
  unfold flushWriter, flushable; simpl.
  destruct (asFlusher (FormattedWriter_Writer fw)); reflexivity.
Qed.

Lemma flush_own_events ws w :
  events (forRange flushWriter ws w)
  = map EvFlush (filter flushable (map FormattedWriter_Writer ws)).
Proof.
  revert w; induction ws as [|fw ws IH]; intros w; simpl.
  - reflexivity.
  - rewrite IH, flushWriter_events; simpl.
    destruct (flushable (FormattedWriter_Writer fw)); reflexivity.
Qed.

Lemma map_flat_map_comm (A B C : Type) (f : B -> C) (g : A -> list B) l :
  map f (flat_map g l) = flat_map (fun x => map f (g x)) l.
Proof.
  induction l as [|x l IH]; simpl; [reflexivity |].
  rewrite map_app, IH. reflexivity.
Qed.

Lemma Flush_events d : forall w, events (Flush d w) = map EvFlush (flush_order d).
Proof.
  induction d as [f ws cs IH] using dispatcher_tree_ind; intros w; simpl.
  unfold Dispatchers, Writers; simpl.
  rewrite (forRange_events (fun c => map EvFlush (flush_order c)) Flush IH).
  rewrite flush_own_events, map_app, map_flat_map_comm. reflexivity.
Qed.

Lemma run_flushes_app l1 l2 w :
  run_flushes (l1 ++ l2) w = run_flushes l2 (run_flushes l1 w).
Proof. unfold run_flushes. apply fold_left_app. Qed.

Lemma flush_own_final ws w :
  final (forRange flushWriter ws w)
  = run_flushes (filter flushable (map FormattedWriter_Writer ws)) w.
Proof.
  revert w; induction ws as [|fw ws IH]; intros w; simpl.
  - reflexivity.
  - rewrite IH. unfold flushWriter, flushable.
    destruct (asFlusher (FormattedWriter_Writer fw)) eqn:E; simpl.
    + unfold run_flushes at 2; simpl. rewrite E. reflexivity.
    + reflexivity.
Qed.

Lemma forRange_final_flushes (A : Type) (g : A -> list Sink) (body : A -> M unit) xs :
  Forall (fun x => forall w, final (body x w) = run_flushes (g x) w) xs ->
  forall w, final (forRange body xs w) = run_flushes (flat_map g xs) w.
Proof.
  intros HF; induction HF as [|x xs Hx _ IH]; intros w; simpl.
  - reflexivity.
  - rewrite IH, Hx, run_flushes_app. reflexivity.
Qed.

Lemma Flush_final d : forall w, final (Flush d w) = run_flushes (flush_order d) w.
Proof.
  induction d as [f ws cs IH] using dispatcher_tree_ind; intros w; simpl.
  unfold Dispatchers, Writers; simpl.
  rewrite flush_own_final, (forRange_final_flushes flush_order Flush IH).
  rewrite run_flushes_app. reflexivity.
Qed.

Lemma flush_order_sinks d s :
  In s (flush_order d) <-> In s (sinks d) /\ flushable s = true.
Proof.
  induction d as [f ws cs IH] using dispatcher_tree_ind; simpl.
  rewrite Forall_forall in IH.
  rewrite !in_app_iff, !in_flat_map, filter_In. split.
  - intros [[c [Hc Hs]] | [Hs Hf]].
    + apply IH in Hs; [| exact Hc]. destruct Hs as [Hs Hf].
      split; [right; exists c; split; assumption | exact Hf].
    + split; [left; exact Hs | exact Hf].
  - intros [[Hs | [c [Hc Hs]]] Hf].
    + right; split; assumption.
    + left; exists c; split; [exact Hc |]. apply IH; [exact Hc |].
      split; assumption.
Qed.

(** C6.  [Flush] calls the flush method of exactly the sinks of
    [flush_order]: the children's subtrees first, in registration order and
    recursively, then the node's own writers in registration order, and of
    these only the sinks that have a flush method; the world at the end is
    the one these flushes produce, and a sink without the method is passed
    over. *)
Theorem Flush_children_then_writers (d : dispatcher) (w : World) :
  events (Flush d w)
  = map EvFlush (flat_map flush_order (dispatchers d))
    ++ map EvFlush (filter flushable (map FormattedWriter_Writer (writers d)))
  /\ final (Flush d w) = run_flushes (flush_order d) w
  /\ (forall s, In (EvFlush s) (events (Flush d w)) ->
                In s (sinks d) /\ asFlusher s <> None)
  /\ (forall s, In s (sinks d) -> asFlusher s = None ->
                ~ In (EvFlush s) (events (Flush d w))).
Proof.
  assert (Hin : forall s, In (EvFlush s) (events (Flush d w))
                          -> In s (sinks d) /\ flushable s = true).
  { intros s Hs. rewrite Flush_events, in_map_iff in Hs.
    destruct Hs as [s' [E Hs']]. inversion E; subst s'.
    apply flush_order_sinks; exact Hs'. }
  split; [| split; [| split]].
  - rewrite Flush_events. destruct d as [f ws cs]; simpl.
    apply map_app.
  - apply Flush_final.
  - intros s Hs. apply Hin in Hs. destruct Hs as [Hs Hf].
    split; [exact Hs |]. unfold flushable in Hf.
    intros E; rewrite E in Hf; discriminate.
  - intros s _ Hnone Hs. apply Hin in Hs. destruct Hs as [_ Hf].
    unfold flushable in Hf. rewrite Hnone in Hf. discriminate.
Qed.

(** C7.  [Flush] has no result to report an error with and never reaches
    the error side of any collaborator: on every tree and from every world
    it returns, every call it makes is a sink's flush, nothing is handed to
    an error callback and no close is attempted; on a tree none of whose
    sinks has a flush method it does nothing at all. *)
Theorem Flush_is_silent (d : dispatcher) (w : World) :
  value (Flush d w) = tt
  /\ Forall is_flush (events (Flush d w))
  /\ reported (events (Flush d w)) = []
  /\ ~ Exists close_failed (events (Flush d w))
  /\ ((forall s, In s (sinks d) -> asFlusher s = None) ->
      final (Flush d w) = w /\ events (Flush d w) = []).
Proof.
  assert (HF : Forall is_flush (events (Flush d w))).
  { rewrite Flush_events. apply Forall_forall. intros ev Hev.
    apply in_map_iff in Hev. destruct Hev as [s [<- _]]. exact I. }
  split; [destruct (value (Flush d w)); reflexivity |].
  split; [exact HF |]. split; [| split].
  - induction HF as [|ev t Hev _ IH]; [reflexivity |].
    destruct ev; simpl in *; try contradiction. exact IH.
  - intros HE. apply Exists_exists in HE. destruct HE as [ev [Hin Hc]].
    rewrite Forall_forall in HF. specialize (HF ev Hin).
    destruct ev; simpl in *; contradiction.
  - intros Hnone.
    assert (E : flush_order d = []).
    { destruct (flush_order d) as [|s l] eqn:E; [reflexivity |].
      assert (Hs : In s (flush_order d)) by (rewrite E; left; reflexivity).
      apply flush_order_sinks in Hs. destruct Hs as [Hs Hf].
      unfold flushable in Hf. rewrite (Hnone s Hs) in Hf. discriminate. }
    rewrite Flush_final, Flush_events, E. split; reflexivity.
Qed.


(** ** Dispatch *)

Lemma Dispatch_unfold f ws cs m l c ef w :
  Dispatch (mkDispatcher f ws cs) m l c ef w
  = bind (forRange (deliver m l c ef) ws)
         (fun _ => forRange (fun d => Dispatch d m l c ef) cs) w.
Proof. reflexivity. Qed.

Lemma flat_map_single (A B : Type) (f : A -> B) l :
  flat_map (fun x => [f x]) l = map f l.
Proof. induction l as [|x l IH]; simpl; [| rewrite IH]; reflexivity. Qed.

Lemma delivered_app a b : delivered a -> delivered b -> delivered (a ++ b).
Proof.
  induction 1; intros Hb; simpl; [exact Hb | |]; constructor; auto.
Qed.

Lemma deliver_delivered m l c ef wr w : delivered (events (deliver m l c ef wr w)).
Proof.
  unfold deliver, bind, callWrite; simpl.
  destruct (snd (FormattedWriter_Write wr m l c w)) as [e|]; simpl;
    repeat constructor.
Qed.

Lemma deliver_written m l c ef wr w :
  written (events (deliver m l c ef wr w)) = [(wr, m, l, c)].
Proof.
  unfold deliver, bind, callWrite; simpl.
  destruct (snd (FormattedWriter_Write wr m l c w)); reflexivity.
Qed.

Lemma Dispatch_delivered d m l c ef : forall w, delivered (events (Dispatch d m l c ef w)).
Proof.
  induction d as [f ws cs IH] using dispatcher_tree_ind; intros w.
  rewrite Dispatch_unfold. unfold bind at 1; simpl. apply delivered_app.
  - apply forRange_closed; [constructor | apply delivered_app |].
    apply Forall_forall; intros wr _ w'. apply deliver_delivered.
  - apply forRange_closed; [constructor | apply delivered_app | exact IH].
Qed.

Lemma written_own m l c ef ws w :
  written (events (forRange (deliver m l c ef) ws w))
  = map (fun wr => (wr, m, l, c)) ws.
Proof.
  unfold written.
  rewrite (forRange_proj _ (fun wr => [(wr, m, l, c)])).
  - apply flat_map_single.
  - apply Forall_forall; intros wr _ w'. apply deliver_written.
Qed.

Lemma written_app a b : written (a ++ b) = written a ++ written b.
Proof. apply flat_map_app. Qed.

Lemma written_children cs m l c ef :
  Forall (fun d => forall w, written (events (Dispatch d m l c ef w))
                             = map (fun wr => (wr, m, l, c)) (dispatch_order d)) cs ->
  forall w, written (events (forRange (fun d => Dispatch d m l c ef) cs w))
            = map (fun wr => (wr, m, l, c)) (flat_map dispatch_order cs).
Proof.
  intros IH w. unfold written.
  rewrite (forRange_proj _ (fun d => map (fun wr => (wr, m, l, c)) (dispatch_order d))).
  - symmetry; apply map_flat_map_comm.
  - exact IH.
Qed.

Lemma Dispatch_written d m l c ef :
  forall w, written (events (Dispatch d m l c ef w))
            = map (fun wr => (wr, m, l, c)) (dispatch_order d).
Proof.
  induction d as [f ws cs IH] using dispatcher_tree_ind; intros w.
  rewrite Dispatch_unfold. unfold bind at 1; simpl.
  rewrite written_app, written_own, written_children by exact IH.
  rewrite map_app. reflexivity.
Qed.

Lemma delivered_reported t : delivered t -> reported t = failures t.
Proof.
  induction 1 as [| wr m l c t _ IH | wr m l c e t _ IH]; simpl.
  - reflexivity.
  - exact IH.
  - rewrite IH. reflexivity.
Qed.

Lemma flat_map_flat_map (A B C : Type) (g : B -> list C) (h : A -> list B) l :
  flat_map g (flat_map h l) = flat_map (fun x => flat_map g (h x)) l.
Proof.
  induction l as [|x l IH]; simpl; [reflexivity |].
  rewrite flat_map_app, IH. reflexivity.
Qed.

(** A projection of the log that does not depend on the world for any
    writer of the tree is, for the whole [Dispatch], the projection of the
    writers in [dispatch_order]. *)
Lemma Dispatch_proj (X : Type) (p : event -> list X) (g : FormattedWriter -> list X)
      m l c ef d :
  Forall (fun wr => forall w, flat_map p (events (deliver m l c ef wr w)) = g wr)
         (dispatch_order d) ->
  forall w, flat_map p (events (Dispatch d m l c ef w)) = flat_map g (dispatch_order d).
Proof.
  induction d as [f ws cs IH] using dispatcher_tree_ind; intros Hall w.
  simpl in Hall. apply Forall_app in Hall. destruct Hall as [Hown Hsub].
  apply Forall_flat_map in Hsub.
  rewrite Dispatch_unfold. unfold bind at 1; simpl.
  rewrite !flat_map_app. f_equal.
  - apply forRange_proj. exact Hown.
  - rewrite flat_map_flat_map. apply forRange_proj.
    rewrite Forall_forall in *. intros d Hd w'. apply IH; auto.
Qed.

Section TwoWriters.
Variables W1 W2 : FormattedWriter.
Hypothesis W1_fails :
  forall m l c w, snd (FormattedWriter_Write W1 m l c w) <> None.
Hypothesis W2_succeeds :
  forall m l c w, snd (FormattedWriter_Write W2 m l c w) = None.

Lemma deliver_marks m l c ef wr w :
  wr = W1 \/ wr = W2 ->
  callback_marks (events (deliver m l c ef wr w))
  = if FormattedWriter_eq_dec wr W2 then [] else [tt].
Proof.
  intros Hwr. unfold deliver, bind, callWrite; simpl.
  destruct (FormattedWriter_eq_dec wr W2) as [-> | Hne].
  - rewrite W2_succeeds. reflexivity.
  - destruct Hwr as [-> | ->]; [| contradiction].
    destruct (snd (FormattedWriter_Write W1 m l c w)) eqn:E; [reflexivity |].
    exfalso. exact (W1_fails _ _ _ _ E).
Qed.

Lemma deliver_received m l c ef wr w :
  wr = W1 \/ wr = W2 ->
  received_by W2 (events (deliver m l c ef wr w))
  = if FormattedWriter_eq_dec wr W2 then [(m, l, c)] else [].
Proof.
  intros Hwr. unfold deliver, bind, callWrite; simpl.
  destruct (FormattedWriter_eq_dec wr W2) as [-> | Hne].
  - rewrite W2_succeeds; simpl.
    destruct (FormattedWriter_eq_dec W2 W2); [reflexivity | contradiction].
  - destruct Hwr as [-> | ->]; [| contradiction].
    destruct (snd (FormattedWriter_Write W1 m l c w)) eqn:E; [reflexivity |].
    exfalso. exact (W1_fails _ _ _ _ E).
Qed.

Lemma two_writers_once (X : Type) (x y : list X) d m l c w :
  Permutation [W1; W2] (dispatch_order d) ->
  (flat_map (fun wr => if FormattedWriter_eq_dec wr W2 then x else y) (dispatch_order d)
   = y ++ x
   \/ flat_map (fun wr => if FormattedWriter_eq_dec wr W2 then x else y) (dispatch_order d)
      = x ++ y)
  /\ Forall (fun wr => wr = W1 \/ wr = W2) (dispatch_order d)
  /\ snd (FormattedWriter_Write W1 m l c w) <> snd (FormattedWriter_Write W2 m l c w).
Proof.
  intros HP.
  assert (Hne : W1 <> W2).
  { intros E. apply (W1_fails m l c w). rewrite E. apply W2_succeeds. }
  split; [| split].
  - apply Permutation_length_2_inv in HP. destruct HP as [-> | ->]; simpl;
      destruct (FormattedWriter_eq_dec W1 W2); try contradiction;
      destruct (FormattedWriter_eq_dec W2 W2); try contradiction;
      rewrite ?app_nil_r; auto.
  - apply Permutation_length_2_inv in HP.
    destruct HP as [-> | ->]; repeat (apply Forall_cons; [auto |]); apply Forall_nil.
  - rewrite W2_succeeds. apply W1_fails.
Qed.

Lemma Dispatch_two_writers d m l c ef w :
  Permutation [W1; W2] (dispatch_order d) ->
  callback_marks (events (Dispatch d m l c ef w)) = [tt]
  /\ received_by W2 (events (Dispatch d m l c ef w)) = [(m, l, c)].
Proof.
  intros HP. split.
  - destruct (@two_writers_once unit [] [tt] d m l c w HP) as [Hcalc [Hall _]].
    unfold callback_marks.
    rewrite (Dispatch_proj _ (fun wr => if FormattedWriter_eq_dec wr W2 then [] else [tt])).
    + destruct Hcalc as [-> | ->]; reflexivity.
    + rewrite Forall_forall in *. intros wr Hwr w'.
      apply deliver_marks. auto.
  - destruct (@two_writers_once _ [(m, l, c)] [] d m l c w HP) as [Hcalc [Hall _]].
    unfold received_by.
    rewrite (Dispatch_proj _ (fun wr => if FormattedWriter_eq_dec wr W2 then [(m, l, c)] else [])).
    + destruct Hcalc as [-> | ->]; reflexivity.
    + rewrite Forall_forall in *. intros wr Hwr w'.
      apply deliver_received. auto.
Qed.

Lemma dispatchAll_two_writers d ef msgs w :
  Permutation [W1; W2] (dispatch_order d) ->
  callback_count (events (dispatchAll d ef msgs w)) = List.length msgs
  /\ received_by W2 (events (dispatchAll d ef msgs w)) = msgs.
Proof.
  intros HP. unfold dispatchAll, callback_count, callback_marks, received_by. split.
  - rewrite (forRange_proj _ (fun _ => [tt])).
    + rewrite flat_map_single. apply length_map.
    + apply Forall_forall. intros [[m l] c] _ w'.
      apply Dispatch_two_writers; exact HP.
  - rewrite (forRange_proj _ (fun msg => [msg])).
    + rewrite flat_map_single. apply map_id.
    + apply Forall_forall. intros [[m l] c] _ w'.
      apply Dispatch_two_writers; exact HP.
Qed.
End TwoWriters.

(** ** Construction *)

Lemma addReceivers_ok f rs sts :
  Forall2 (fun r st => store_of f r = Ok st) rs sts ->
  forall ws cs,
    addReceivers (mkDispatcher f ws cs) rs
    = Ok (mkDispatcher f (ws ++ writers_in sts) (cs ++ children_in sts)).
Proof.
  induction 1 as [| r st rs sts Hr _ IH]; intros ws cs; simpl.
  - rewrite !app_nil_r. reflexivity.
  - destruct r as [[wr|] [s|] [c|]]; simpl in Hr |- *;
      try destruct (NewFormattedWriter s f) as [wr'|e];
      inversion Hr; subst st; rewrite IH; simpl;
      rewrite <- ?app_assoc; reflexivity.
Qed.

Lemma addReceivers_err f pre sts r post e :
  Forall2 (fun r st => store_of f r = Ok st) pre sts ->
  store_of f r = Err e ->
  forall ws cs, addReceivers (mkDispatcher f ws cs) (pre ++ r :: post) = Err e.
Proof.
  intros Hpre Hr. induction Hpre as [| r0 st pre sts Hr0 _ IH]; intros ws cs; simpl.
  - destruct r as [[wr|] [s|] [c|]]; simpl in Hr |- *;
      try destruct (NewFormattedWriter s f); congruence.
  - destruct r0 as [[wr|] [s|] [c|]]; simpl in Hr0 |- *;
      try destruct (NewFormattedWriter s f); try discriminate; apply IH.
Qed.

Lemma stored_counts f rs sts :
  Forall2 (fun r st => store_of f r = Ok st) rs sts ->
  List.length (writers_in sts) = List.length (filter writer_like rs)
  /\ List.length (children_in sts) = List.length (filter dispatcher_like rs)
  /\ children_in sts
     = flat_map (fun r => if dispatcher_like r
                          then match asDispatcherInterface r with
                               | Some c => [c]
                               | None => []
                               end
                          else []) rs
  /\ Forall2 (fun r wr => store_of f r = Ok (StoredWriter wr))
             (filter writer_like rs) (writers_in sts).
Proof.
  induction 1 as [| r st rs sts Hr _ IH].
  - repeat split; constructor.
  - destruct IH as [IHw [IHc [IHo IHf]]].
    destruct r as [[wr|] [s|] [c|]]; simpl in Hr |- *;
      try destruct (NewFormattedWriter s f) eqn:E;
      inversion Hr; subst st; simpl;
      repeat split; try congruence;
      try (constructor; [simpl; try rewrite E; reflexivity | exact IHf]);
      exact IHf.
Qed.

(** C4.  [createDispatcher] rejects a nil formatter with [NilFormatter] and
    a nil or empty receiver list with [EmptyReceivers].  Otherwise it takes
    the receivers in order and classifies each by the first type assertion
    that succeeds: a formatted writer is stored as it is, whatever else it
    may be; else an [io.Writer] is wrapped with the node's formatter, also
    when it is a dispatcher too; else a dispatcher becomes a child; anything
    else is unsupported.  The first receiver whose classification fails ends
    the construction with that error, which is the wrapping error or
    [UnsupportedReceiverType]; when none fails, the node has the given
    formatter, the writers of the writer-like receivers and the
    dispatcher-like receivers as children, each list in the order of the
    receivers and as long as there are receivers of its kind. *)
Theorem createDispatcher_classifies (f : Formatter) :
  (forall rs, createDispatcher None rs = Err NilFormatter)
  /\ createDispatcher (Some f) None = Err EmptyReceivers
  /\ createDispatcher (Some f) (Some []) = Err EmptyReceivers
  /\ (forall wr s c,
         createDispatcher (Some f) (Some [mkReceiver (Some wr) s c])
         = Ok (mkDispatcher f [wr] []))
  /\ (forall s c,
         createDispatcher (Some f) (Some [mkReceiver None (Some s) c])
         = match NewFormattedWriter s f with
           | Ok wr => Ok (mkDispatcher f [wr] [])
           | Err e => Err e
           end)
  /\ (forall c,
         createDispatcher (Some f) (Some [mkReceiver None None (Some c)])
         = Ok (mkDispatcher f [] [c]))
  /\ (forall pre sts post,
         Forall2 (fun r st => store_of f r = Ok st) pre sts ->
         createDispatcher (Some f) (Some (pre ++ mkReceiver None None None :: post))
         = Err UnsupportedReceiverType)
  /\ (forall pre sts r post e,
         Forall2 (fun r st => store_of f r = Ok st) pre sts ->
         store_of f r = Err e ->
         createDispatcher (Some f) (Some (pre ++ r :: post)) = Err e)
  /\ (forall rs sts,
         rs <> [] ->
         Forall2 (fun r st => store_of f r = Ok st) rs sts ->
         exists d,
           createDispatcher (Some f) (Some rs) = Ok d
           /\ formatter d = f
           /\ writers d = writers_in sts
           /\ dispatchers d = children_in sts
           /\ Forall2 (fun r wr => store_of f r = Ok (StoredWriter wr))
                      (filter writer_like rs) (writers d)
           /\ dispatchers d
              = flat_map (fun r => if dispatcher_like r
                                   then match asDispatcherInterface r with
                                        | Some c => [c]
                                        | None => []
                                        end
                                   else []) rs
           /\ List.length (writers d) = List.length (filter writer_like rs)
           /\ List.length (dispatchers d) = List.length (filter dispatcher_like rs)).
Proof.
  assert (Herr : forall pre sts r post e,
             Forall2 (fun r st => store_of f r = Ok st) pre sts ->
             store_of f r = Err e ->
             createDispatcher (Some f) (Some (pre ++ r :: post)) = Err e).
  { intros pre sts r post e Hpre Hr. unfold createDispatcher.
    destruct (pre ++ r :: post) as [|r0 l] eqn:E.
    - destruct pre; discriminate.
    - change (addReceivers (mkDispatcher f [] []) (r0 :: l) = Err e).
      rewrite <- E. eapply addReceivers_err; eassumption. }
  split; [reflexivity |]. split; [reflexivity |]. split; [reflexivity |].
  split; [reflexivity |].
  split; [intros s c; simpl; destruct (NewFormattedWriter s f); reflexivity |].
  split; [reflexivity |].
  split; [| split].
  - intros pre sts post Hpre. apply (Herr pre sts); [exact Hpre | reflexivity].
  - exact Herr.
  - intros rs sts Hne Hall.
    exists (mkDispatcher f (writers_in sts) (children_in sts)).
    destruct (@stored_counts f rs sts Hall) as [Hk [Hm [Hc Hw]]].
    split; [| simpl; repeat split; assumption].
    unfold createDispatcher. destruct rs as [|r rs]; [contradiction |].
    change (addReceivers (mkDispatcher f [] []) (r :: rs)
            = Ok (mkDispatcher f (writers_in sts) (children_in sts))).
    apply (@addReceivers_ok f (r :: rs) sts Hall [] []).
Qed.


(** ** Close *)

Lemma Close_unfold f ws cs w :
  Close (mkDispatcher f ws cs) w
  = bind (forRangeErr (closeChild Close) cs)
         (fun err => match err with
                     | Some e => ret (Some e)
                     | None => forRangeErr closeWriter ws
                     end) w.
Proof. reflexivity. Qed.

Lemma no_close_failure_app a b :
  no_close_failure a -> no_close_failure b -> no_close_failure (a ++ b).
Proof. unfold no_close_failure. intros; apply Forall_app; split; assumption. Qed.

Lemma fail_fast_prepend t0 v w t :
  no_close_failure t0 ->
  fail_fast (mkOutcome v w t) ->
  fail_fast (mkOutcome v w (t0 ++ t)).
Proof.
  unfold fail_fast; simpl. intros H0. destruct v as [e|].
  - intros [pre [s [-> Hpre]]]. exists (t0 ++ pre), s.
    split; [apply app_assoc | apply no_close_failure_app; assumption].
  - apply no_close_failure_app; exact H0.
Qed.

Lemma fail_fast_eta (o : outcome (option error)) :
  fail_fast o <-> fail_fast (mkOutcome (value o) (final o) (events o)).
Proof. destruct o; reflexivity. Qed.

Lemma forRangeErr_fail_fast (A : Type) (body : A -> M (option error)) xs :
  Forall (fun x => forall w, fail_fast (body x w)) xs ->
  forall w, fail_fast (forRangeErr body xs w).
Proof.
  intros HF; induction HF as [|x xs Hx _ IH]; intros w.
  - constructor.
  - simpl. unfold bind. specialize (Hx w). unfold fail_fast in Hx.
    destruct (value (body x w)) as [e|] eqn:E; simpl.
    + unfold fail_fast; simpl. rewrite app_nil_r. exact Hx.
    + apply fail_fast_prepend; [exact Hx |]. apply fail_fast_eta, IH.
Qed.

Lemma Flush_no_close_failure d w : no_close_failure (events (Flush d w)).
Proof.
  rewrite Flush_events. apply Forall_forall. intros ev Hev.
  apply in_map_iff in Hev. destruct Hev as [s [<- _]]. intros [].
Qed.

Lemma flushWriter_no_close_failure fw w : no_close_failure (events (flushWriter fw w)).
Proof.
  rewrite flushWriter_events. apply Forall_forall. intros ev Hev.
  apply in_map_iff in Hev. destruct Hev as [s [<- _]]. intros [].
Qed.

Lemma closeWriter_fail_fast fw w : fail_fast (closeWriter fw w).
Proof.
  unfold closeWriter, bind.
  apply fail_fast_prepend; [apply flushWriter_no_close_failure |].
  apply fail_fast_eta.
  destruct (asCloser (FormattedWriter_Writer fw)) as [closer|].
  - unfold fail_fast, callClose; simpl.
    destruct (snd (closer (final (flushWriter fw w)))) as [e|] eqn:E.
    + exists [], (FormattedWriter_Writer fw). split; [reflexivity | constructor].
    + repeat constructor. intros [].
  - constructor.
Qed.

Lemma Close_stops_at_failure d : forall w, fail_fast (Close d w).
Proof.
  induction d as [f ws cs IH] using dispatcher_tree_ind; intros w.
  rewrite Close_unfold. unfold bind at 1.
  assert (Hc : fail_fast (forRangeErr (closeChild Close) cs w)).
  { apply forRangeErr_fail_fast. rewrite Forall_forall in *.
    intros c Hc w'. unfold closeChild, bind.
    apply fail_fast_prepend; [apply Flush_no_close_failure |].
    apply fail_fast_eta, IH, Hc. }
  unfold fail_fast in Hc.
  destruct (value (forRangeErr (closeChild Close) cs w)) as [e|] eqn:E; simpl.
  - unfold fail_fast; simpl. rewrite app_nil_r. exact Hc.
  - apply fail_fast_prepend; [exact Hc |].
    apply fail_fast_eta, forRangeErr_fail_fast.
    apply Forall_forall. intros fw _ w'. apply closeWriter_fail_fast.
Qed.


Lemma forRangeErr_stops (A : Type) (body : A -> M (option error)) pre x post e :
  forall w,
    value (forRangeErr body pre w) = None ->
    value (body x (final (forRangeErr body pre w))) = Some e ->
    value (forRangeErr body (pre ++ x :: post) w) = Some e
    /\ final (forRangeErr body (pre ++ x :: post) w)
       = final (body x (final (forRangeErr body pre w)))
    /\ events (forRangeErr body (pre ++ x :: post) w)
       = events (forRangeErr body pre w)
         ++ events (body x (final (forRangeErr body pre w))).
Proof.
  induction pre as [|a pre IH]; intros w Hpre Hx; simpl in *.
  - unfold bind. rewrite Hx; simpl. rewrite app_nil_r. auto.
  - unfold bind in *. destruct (value (body a w)) as [e'|]; simpl in *.
    + discriminate.
    + destruct (IH _ Hpre Hx) as [Hv [Hf He]].
      rewrite Hv, Hf, He, app_assoc. auto.
Qed.

Lemma Close_children_failed f ws cs w e :
  value (forRangeErr (closeChild Close) cs w) = Some e ->
  value (Close (mkDispatcher f ws cs) w) = Some e
  /\ final (Close (mkDispatcher f ws cs) w) = final (forRangeErr (closeChild Close) cs w)
  /\ events (Close (mkDispatcher f ws cs) w) = events (forRangeErr (closeChild Close) cs w).
Proof.
  intros E. rewrite Close_unfold. unfold bind at 1 2 3. rewrite E; simpl.
  rewrite app_nil_r. auto.
Qed.

Lemma Close_children_done f ws cs w :
  value (forRangeErr (closeChild Close) cs w) = None ->
  value (Close (mkDispatcher f ws cs) w)
  = value (forRangeErr closeWriter ws (final (forRangeErr (closeChild Close) cs w)))
  /\ final (Close (mkDispatcher f ws cs) w)
     = final (forRangeErr closeWriter ws (final (forRangeErr (closeChild Close) cs w)))
  /\ events (Close (mkDispatcher f ws cs) w)
     = events (forRangeErr (closeChild Close) cs w)
       ++ events (forRangeErr closeWriter ws (final (forRangeErr (closeChild Close) cs w))).
Proof.
  intros E. rewrite Close_unfold. unfold bind at 1 2 3. rewrite E; simpl. auto.
Qed.

Lemma Close_children_only f cs w :
  value (Close (mkDispatcher f [] cs) w) = value (forRangeErr (closeChild Close) cs w)
  /\ final (Close (mkDispatcher f [] cs) w) = final (forRangeErr (closeChild Close) cs w)
  /\ events (Close (mkDispatcher f [] cs) w) = events (forRangeErr (closeChild Close) cs w).
Proof.
  rewrite Close_unfold. unfold bind.
  destruct (value (forRangeErr (closeChild Close) cs w)); simpl;
    rewrite app_nil_r; auto.
Qed.

(** C2.  When [Close] returns an error, the close that returned it is the
    last call of the whole invocation and the first close to fail; when it
    returns none, no close failed.  At the node: if the children before [c]
    were torn down without error and [c]'s [Close] (after its flush) returns
    [e], the invocation ends right there with [e], the later children and
    all writers untouched; if all children and the writers before [fw] were
    torn down without error and the close of [fw]'s sink returns [e], the
    invocation ends right there with [e], the later writers untouched. *)
Theorem Close_fails_fast (d : dispatcher) (w : World) :
  (forall e, value (Close d w) = Some e ->
             exists pre s, events (Close d w) = pre ++ [EvClose s (Some e)]
                           /\ no_close_failure pre)
  /\ (value (Close d w) = None -> no_close_failure (events (Close d w)))
  /\ (forall pre c post e,
         dispatchers d = pre ++ c :: post ->
         value (Close (mkDispatcher (formatter d) [] pre) w) = None ->
         value (Close c (final (Flush c (final (Close (mkDispatcher (formatter d) [] pre) w)))))
         = Some e ->
         value (Close d w) = Some e
         /\ final (Close d w)
            = final (Close c (final (Flush c (final (Close (mkDispatcher (formatter d) [] pre) w)))))
         /\ events (Close d w)
            = events (Close (mkDispatcher (formatter d) [] pre) w)
              ++ events (Flush c (final (Close (mkDispatcher (formatter d) [] pre) w)))
              ++ events (Close c (final (Flush c (final (Close (mkDispatcher (formatter d) [] pre) w))))))
  /\ (forall pre fw post e,
         writers d = pre ++ fw :: post ->
         value (Close (mkDispatcher (formatter d) pre (dispatchers d)) w) = None ->
         value (closeWriter fw (final (Close (mkDispatcher (formatter d) pre (dispatchers d)) w)))
         = Some e ->
         value (Close d w) = Some e
         /\ final (Close d w)
            = final (closeWriter fw (final (Close (mkDispatcher (formatter d) pre (dispatchers d)) w)))
         /\ events (Close d w)
            = events (Close (mkDispatcher (formatter d) pre (dispatchers d)) w)
              ++ events (closeWriter fw (final (Close (mkDispatcher (formatter d) pre (dispatchers d)) w)))).
Proof.
  pose proof (Close_stops_at_failure d w) as HQ. unfold fail_fast in HQ.
  split; [| split; [| split]].
  - intros e He. rewrite He in HQ. exact HQ.
  - intros He. rewrite He in HQ. exact HQ.
  - clear HQ. destruct d as [f ws cs]; cbn [formatter dispatchers writers].
    intros pre c post e -> Hpre Hc.
    destruct (Close_children_only f pre w) as [Hv [Hf He]].
    rewrite Hv in Hpre. rewrite Hf in Hc. rewrite Hf, He.
    destruct (@forRangeErr_stops _ (closeChild Close) pre c post e w Hpre Hc)
      as [Sv [Sf Se]].
    rewrite Close_unfold. unfold bind at 1 2 3. rewrite Sv; simpl.
    rewrite Sf, Se, app_nil_r. repeat split; reflexivity.
  - clear HQ. destruct d as [f ws cs]; cbn [formatter dispatchers writers].
    intros pre fw post e -> Hpre Hfw.
    destruct (value (forRangeErr (closeChild Close) cs w)) as [e'|] eqn:E.
    + destruct (Close_children_failed f pre cs w E) as [Hv _]. congruence.
    + destruct (Close_children_done f pre cs w E) as [Hv [Hf He]].
      destruct (Close_children_done f (pre ++ fw :: post) cs w E) as [Hv' [Hf' He']].
      rewrite Hv in Hpre. rewrite Hf in Hfw. rewrite Hf, He, Hv', Hf', He'.
      destruct (@forRangeErr_stops _ closeWriter pre fw post e _ Hpre Hfw)
        as [Sv [Sf Se]].
      rewrite Sv, Sf, Se, app_assoc. auto.
Qed.


Lemma sink_calls_app a b : sink_calls (a ++ b) = sink_calls a ++ sink_calls b.
Proof. apply flat_map_app. Qed.

Lemma Flush_sink_calls d w :
  sink_calls (events (Flush d w)) = map CallFlush (flush_order d).
Proof.
  rewrite Flush_events. induction (flush_order d) as [|s l IH]; simpl.
  - reflexivity.
  - f_equal. exact IH.
Qed.

Lemma closeWriter_sink_calls fw w :
  sink_calls (events (closeWriter fw w)) = teardown_writer fw.
Proof.
  unfold closeWriter, bind, teardown_writer, flushWriter, flushable, closable; simpl.
  destruct (asFlusher (FormattedWriter_Writer fw));
    destruct (asCloser (FormattedWriter_Writer fw)); reflexivity.
Qed.

Lemma runs_along_prepend t0 v w t full0 full :
  sink_calls t0 = full0 ->
  runs_along (mkOutcome v w t) full ->
  runs_along (mkOutcome v w (t0 ++ t)) (full0 ++ full).
Proof.
  intros E [rest [Hr Hv]]. exists rest. simpl in *.
  rewrite sink_calls_app, E, <- app_assoc, Hr. auto.
Qed.

Lemma runs_along_eta (o : outcome (option error)) full :
  runs_along o full <-> runs_along (mkOutcome (value o) (final o) (events o)) full.
Proof. destruct o; reflexivity. Qed.

Lemma forRangeErr_runs_along (A : Type) (g : A -> list sinkCall)
      (body : A -> M (option error)) xs :
  Forall (fun x => forall w, runs_along (body x w) (g x)) xs ->
  forall w, runs_along (forRangeErr body xs w) (flat_map g xs).
Proof.
  intros HF; induction HF as [|x xs Hx _ IH]; intros w.
  - exists []. auto.
  - simpl. unfold bind. destruct (Hx w) as [rest [Hr Hv]].
    destruct (value (body x w)) as [e|] eqn:E; simpl.
    + exists (rest ++ flat_map g xs). simpl. split; [| discriminate].
      rewrite app_nil_r, app_assoc, Hr. reflexivity.
    + specialize (Hv eq_refl). subst rest. rewrite app_nil_r in Hr.
      apply runs_along_prepend; [exact Hr |]. apply runs_along_eta, IH.
Qed.

Lemma Close_runs_along d : forall w, runs_along (Close d w) (close_order d).
Proof.
  induction d as [f ws cs IH] using dispatcher_tree_ind; intros w.
  assert (Hc : runs_along (forRangeErr (closeChild Close) cs w)
                          (flat_map (fun c => map CallFlush (flush_order c) ++ close_order c) cs)).
  { apply forRangeErr_runs_along. rewrite Forall_forall in *.
    intros c Hc w'. unfold closeChild, bind.
    apply runs_along_prepend; [apply Flush_sink_calls |].
    apply runs_along_eta, IH, Hc. }
  assert (Hw : forall w', runs_along (forRangeErr closeWriter ws w')
                                     (flat_map teardown_writer ws)).
  { apply forRangeErr_runs_along. apply Forall_forall. intros fw _ w'.
    exists []. rewrite app_nil_r. split; [apply closeWriter_sink_calls | auto]. }
  simpl close_order.
  destruct (value (forRangeErr (closeChild Close) cs w)) as [e|] eqn:E.
  - destruct (Close_children_failed f ws cs w E) as [Hv [_ He]].
    destruct Hc as [rest [Hr _]].
    exists (rest ++ flat_map teardown_writer ws). rewrite He, Hv.
    split; [| discriminate]. rewrite app_assoc, Hr. reflexivity.
  - destruct (Close_children_done f ws cs w E) as [Hv [_ He]].
    destruct Hc as [rest [Hr Hnil]]. specialize (Hnil E). subst rest.
    rewrite app_nil_r in Hr.
    destruct (Hw (final (forRangeErr (closeChild Close) cs w))) as [rest [Hr' Hnil']].
    exists rest. rewrite He, Hv, sink_calls_app, Hr, <- app_assoc, Hr'. auto.
Qed.


Lemma flush_first_app a b : flush_first a -> flush_first b -> flush_first (a ++ b).
Proof.
  induction 1 as [| s r t _ IH | ev t Hev _ IH]; intros Hb; simpl.
  - exact Hb.
  - apply flush_first_pair, IH, Hb.
  - apply flush_first_other; [exact Hev | apply IH, Hb].
Qed.

Lemma flush_first_flushes l : flush_first (map EvFlush l).
Proof.
  induction l as [|s l IH]; simpl; [constructor |].
  apply flush_first_other; [exact I | exact IH].
Qed.

Lemma closeWriter_flush_first fw w : flush_first (events (closeWriter fw w)).
Proof.
  unfold closeWriter, bind, flushWriter; simpl.
  destruct (asFlusher (FormattedWriter_Writer fw)) as [flusher|] eqn:EF;
    destruct (asCloser (FormattedWriter_Writer fw)) as [closer|]; simpl.
  - apply flush_first_pair. constructor.
  - apply flush_first_other; [exact I | constructor].
  - apply flush_first_other; [| constructor].
    unfold flushable. rewrite EF. reflexivity.
  - constructor.
Qed.

Lemma Close_flush_first d : forall w, flush_first (events (Close d w)).
Proof.
  induction d as [f ws cs IH] using dispatcher_tree_ind; intros w.
  rewrite Close_unfold. unfold bind at 1; simpl. apply flush_first_app.
  - apply forRangeErr_closed; [constructor | apply flush_first_app |].
    rewrite Forall_forall in *. intros c Hc w'. unfold closeChild, bind; simpl.
    apply flush_first_app; [| apply IH, Hc].
    rewrite Flush_events. apply flush_first_flushes.
  - destruct (value (forRangeErr (closeChild Close) cs w)); [constructor |].
    apply forRangeErr_closed; [constructor | apply flush_first_app |].
    apply Forall_forall. intros fw _ w'. apply closeWriter_flush_first.
Qed.

Lemma flush_first_before_close t :
  flush_first t ->
  forall pre s r post,
    t = pre ++ EvClose s r :: post ->
    flushable s = true ->
    exists pre', pre = pre' ++ [EvFlush s].
Proof.
  induction 1 as [| s0 r0 t _ IH | ev t Hev _ IH]; intros pre s r post E Hs.
  - destruct pre; discriminate.
  - destruct pre as [|e1 [|e2 pre]]; simpl in E.
    + discriminate.
    + inversion E; subst. exists []. reflexivity.
    + inversion E; subst. destruct (IH _ _ _ _ eq_refl Hs) as [pre' ->].
      exists (EvFlush s0 :: EvClose s0 r0 :: pre'). reflexivity.
  - destruct pre as [|e1 pre]; simpl in E.
    + inversion E; subst. rewrite Hs in Hev. discriminate.
    + inversion E; subst. destruct (IH _ _ _ _ eq_refl Hs) as [pre' ->].
      exists (e1 :: pre'). reflexivity.
Qed.

Lemma Forall_sink_call_app a b :
  Forall is_sink_call a -> Forall is_sink_call b -> Forall is_sink_call (a ++ b).
Proof. intros; apply Forall_app; split; assumption. Qed.

Lemma closeWriter_sink_only fw w : Forall is_sink_call (events (closeWriter fw w)).
Proof.
  unfold closeWriter, bind, flushWriter; simpl.
  destruct (asFlusher (FormattedWriter_Writer fw));
    destruct (asCloser (FormattedWriter_Writer fw)); simpl;
    repeat constructor.
Qed.

Lemma Close_sink_only d : forall w, Forall is_sink_call (events (Close d w)).
Proof.
  induction d as [f ws cs IH] using dispatcher_tree_ind; intros w.
  rewrite Close_unfold. unfold bind at 1; simpl. apply Forall_sink_call_app.
  - apply forRangeErr_closed; [constructor | apply Forall_sink_call_app |].
    rewrite Forall_forall in *. intros c Hc w'. unfold closeChild, bind; simpl.
    apply Forall_sink_call_app; [| apply IH, Hc].
    rewrite Flush_events. apply Forall_forall. intros ev Hev.
    apply in_map_iff in Hev. destruct Hev as [s [<- _]]. exact I.
  - destruct (value (forRangeErr (closeChild Close) cs w)); [constructor |].
    apply forRangeErr_closed; [constructor | apply Forall_sink_call_app |].
    apply Forall_forall. intros fw _ w'. apply closeWriter_sink_only.
Qed.

(** ** The double flush of the children *)

Lemma app_eq_split (X : Type) (a b pre post : list X) (x : X) :
  a ++ b = pre ++ x :: post ->
  (exists l, a = pre ++ x :: l /\ post = l ++ b)
  \/ (exists l, pre = a ++ l /\ b = l ++ x :: post).
Proof.
  revert pre; induction a as [|y a IH]; intros pre E; simpl in E.
  - right. exists pre. auto.
  - destruct pre as [|z pre]; simpl in E; inversion E; subst.
    + left. exists a. auto.
    + destruct (IH _ H2) as [[l [-> ->]] | [l [-> ->]]].
      * left. exists l. auto.
      * right. exists l. auto.
Qed.

Lemma flushed_twice_left s a t : flushed_twice s t -> flushed_twice s (a ++ t).
Proof.
  intros [x [y [z ->]]]. exists (a ++ x), y, z. rewrite <- app_assoc. reflexivity.
Qed.

Lemma flushed_twice_right s t b : flushed_twice s t -> flushed_twice s (t ++ b).
Proof.
  intros [x [y [z ->]]]. exists x, y, (z ++ b).
  rewrite <- app_assoc; simpl. rewrite <- app_assoc; simpl. reflexivity.
Qed.

Lemma flushed_twice_in s a b :
  In (EvFlush s) a -> In (EvFlush s) b -> flushed_twice s (a ++ b).
Proof.
  intros Ha Hb. apply in_split in Ha. apply in_split in Hb.
  destruct Ha as [a1 [a2 ->]]. destruct Hb as [b1 [b2 ->]].
  exists a1, (a2 ++ b1), b2. rewrite <- !app_assoc; simpl. reflexivity.
Qed.

Lemma twice_before_close_app s a b :
  twice_before_close s a -> twice_before_close s b -> twice_before_close s (a ++ b).
Proof.
  intros Ha Hb pre r post E. apply app_eq_split in E.
  destruct E as [[l [Ea _]] | [l [-> Eb]]].
  - exact (Ha _ _ _ Ea).
  - apply flushed_twice_left. exact (Hb _ _ _ Eb).
Qed.

Lemma sink_calls_close t s r : In (EvClose s r) t -> In (CallClose s) (sink_calls t).
Proof.
  intros Hin. unfold sink_calls. apply in_flat_map.
  exists (EvClose s r). split; [exact Hin | left; reflexivity].
Qed.

Lemma sink_calls_flush t s : In (CallFlush s) (sink_calls t) -> In (EvFlush s) t.
Proof.
  unfold sink_calls. rewrite in_flat_map. intros [ev [Hin Hev]].
  destruct ev; simpl in Hev; try contradiction;
    destruct Hev as [E | []]; inversion E; subst; exact Hin.
Qed.

Lemma close_order_closes d s : In (CallClose s) (close_order d) -> In s (sinks d).
Proof.
  induction d as [f ws cs IH] using dispatcher_tree_ind; simpl.
  rewrite Forall_forall in IH.
  rewrite !in_app_iff, !in_flat_map. intros [[c [Hc Hs]] | [fw [Hfw Hs]]].
  - right. exists c. split; [exact Hc |]. apply in_app_iff in Hs.
    destruct Hs as [Hs | Hs]; [| exact (IH c Hc Hs)].
    apply in_map_iff in Hs. destruct Hs as [s' [E _]]. discriminate.
  - left. unfold teardown_writer in Hs. apply in_app_iff in Hs.
    destruct Hs as [Hs | Hs].
    + destruct (flushable (FormattedWriter_Writer fw)); simpl in Hs;
        [destruct Hs as [E | []]; discriminate | contradiction].
    + destruct (closable (FormattedWriter_Writer fw)); simpl in Hs;
        [| contradiction].
      destruct Hs as [E | []]. inversion E; subst.
      apply in_map. exact Hfw.
Qed.

Lemma close_order_flushes d s :
  In s (sinks d) -> flushable s = true -> In (CallFlush s) (close_order d).
Proof.
  destruct d as [f ws cs]; simpl.
  rewrite !in_app_iff, !in_flat_map, in_map_iff.
  intros [[fw [<- Hfw]] | [c [Hc Hs]]] Hf.
  - right. exists fw. split; [exact Hfw |].
    unfold teardown_writer. rewrite Hf. left. reflexivity.
  - left. exists c. split; [exact Hc |]. apply in_app_iff. left.
    apply in_map, flush_order_sinks. split; assumption.
Qed.


Lemma Close_flushes_all c w s :
  value (Close c w) = None -> In s (sinks c) -> flushable s = true ->
  In (EvFlush s) (events (Close c w)).
Proof.
  intros Hv Hs Hf. destruct (Close_runs_along c w) as [rest [Hr Hnil]].
  rewrite (Hnil Hv), app_nil_r in Hr.
  apply sink_calls_flush. rewrite Hr. apply close_order_flushes; assumption.
Qed.

Lemma Close_closes_own c w s r :
  In (EvClose s r) (events (Close c w)) -> In s (sinks c).
Proof.
  intros Hin. destruct (Close_runs_along c w) as [rest [Hr _]].
  apply close_order_closes. rewrite <- Hr. apply in_app_iff. left.
  apply sink_calls_close with (r := r). exact Hin.
Qed.

Lemma Flush_flushes c w s :
  In s (sinks c) -> flushable s = true -> In (EvFlush s) (events (Flush c w)).
Proof.
  intros Hs Hf. rewrite Flush_events. apply in_map, flush_order_sinks.
  split; assumption.
Qed.

Lemma closeChild_twice c w s :
  flushable s = true -> twice_before_close s (events (closeChild Close c w)).
Proof.
  intros Hf pre r post E. unfold closeChild, bind in E; simpl in E.
  apply app_eq_split in E. destruct E as [[l [E _]] | [l [-> E]]].
  - exfalso. rewrite Flush_events in E.
    assert (Hin : In (EvClose s r) (map EvFlush (flush_order c))).
    { rewrite E. apply in_app_iff. right. left. reflexivity. }
    apply in_map_iff in Hin. destruct Hin as [s' [E' _]]. discriminate.
  - assert (Hin : In s (sinks c)).
    { apply Close_closes_own with (w := final (Flush c w)) (r := r).
      rewrite E. apply in_app_iff. right. left. reflexivity. }
    destruct (@flush_first_before_close _ (Close_flush_first c _) l s r post E Hf)
      as [l' ->].
    apply flushed_twice_in.
    + apply Flush_flushes; assumption.
    + apply in_app_iff. right. left. reflexivity.
Qed.

Lemma twice_before_close_nil s : twice_before_close s [].
Proof. intros pre r post E. destruct pre; discriminate. Qed.

Lemma children_twice cs s :
  flushable s = true ->
  forall w, twice_before_close s (events (forRangeErr (closeChild Close) cs w)).
Proof.
  intros Hf. apply forRangeErr_closed.
  - apply twice_before_close_nil.
  - apply twice_before_close_app.
  - apply Forall_forall. intros c _ w. apply closeChild_twice. exact Hf.
Qed.

Lemma forRangeErr_cons_some (A : Type) (body : A -> M (option error)) x rest w e :
  value (body x w) = Some e ->
  value (forRangeErr body (x :: rest) w) = Some e.
Proof. intros E. simpl. unfold bind. rewrite E. reflexivity. Qed.

Lemma forRangeErr_cons_none (A : Type) (body : A -> M (option error)) x rest w :
  value (body x w) = None ->
  value (forRangeErr body (x :: rest) w)
  = value (forRangeErr body rest (final (body x w)))
  /\ events (forRangeErr body (x :: rest) w)
     = events (body x w) ++ events (forRangeErr body rest (final (body x w))).
Proof. intros E. simpl. unfold bind. rewrite E. auto. Qed.

(** A loop over the children that ran to its end flushed and then closed
    each of them, without error. *)
Lemma children_visit cs c :
  In c cs ->
  forall w,
    value (forRangeErr (closeChild Close) cs w) = None ->
    exists t0 t1 w1,
      events (forRangeErr (closeChild Close) cs w)
      = t0 ++ events (Flush c w1) ++ events (Close c (final (Flush c w1))) ++ t1
      /\ value (Close c (final (Flush c w1))) = None.
Proof.
  induction cs as [|a cs IH]; intros Hin w Hv; [contradiction |].
  destruct (value (closeChild Close a w)) as [e|] eqn:E.
  { rewrite (forRangeErr_cons_some _ _ _ _ E) in Hv. discriminate. }
  destruct (forRangeErr_cons_none (closeChild Close) a cs w E) as [Hv' He].
  rewrite Hv' in Hv. rewrite He. destruct Hin as [-> | Hin].
  - exists [], (events (forRangeErr (closeChild Close) cs (final (closeChild Close c w)))), w.
    split; [| exact E]. simpl. unfold closeChild at 1, bind; simpl.
    rewrite <- app_assoc. reflexivity.
  - destruct (IH Hin _ Hv) as [t0 [t1 [w1 [Ev Hc]]]].
    exists (events (closeChild Close a w) ++ t0), t1, w1.
    split; [| exact Hc]. rewrite Ev, <- app_assoc. reflexivity.
Qed.

(** ** Calling again *)

Lemma runs_along_nonempty o full :
  runs_along o full -> fail_fast o -> full <> [] -> events o <> [].
Proof.
  intros [rest [Hr Hnil]] Hff Hne He. unfold fail_fast in Hff.
  destruct (value o) as [e|].
  - destruct Hff as [pre [s [E _]]]. rewrite He in E.
    destruct pre; discriminate.
  - rewrite He, (Hnil eq_refl) in Hr. simpl in Hr. congruence.
Qed.

(** ** The rendering *)

Lemma string_app_assoc (a b c : string) : ((a ++ b) ++ c = a ++ b ++ c)%string.
Proof. induction a as [|x a IH]; simpl; [| rewrite IH]; reflexivity. Qed.

Lemma string_app_nil_r (a : string) : (a ++ "" = a)%string.
Proof. induction a as [|x a IH]; simpl; [| rewrite IH]; reflexivity. Qed.

Lemma fold_left_joined (A : Type) (g : A -> string) l init :
  fold_left (fun str x => (str ++ g x)%string) l init
  = (init ++ joined (map g l))%string.
Proof.
  revert init; induction l as [|x l IH]; intros init; simpl.
  - symmetry; apply string_app_nil_r.
  - rewrite IH. apply string_app_assoc.
Qed.

Lemma joined_app l1 l2 : joined (l1 ++ l2) = (joined l1 ++ joined l2)%string.
Proof.
  induction l1 as [|x l1 IH]; simpl; [reflexivity |].
  rewrite IH. symmetry; apply string_app_assoc.
Qed.

Lemma dispatcher_String_sections d :
  dispatcher_String d
  = ("Formatter: " ++ Formatter_String (formatter d) ++ nl
     ++ "    ->Dispatchers:" ++ dispatchers_section d
     ++ "    ->Writers:" ++ writers_section d)%string.
Proof.
  destruct d as [f ws cs]. unfold dispatchers_section, writers_section.
  cbn [dispatchers writers formatter].
  destruct cs as [|c cs]; destruct ws as [|wr ws];
    cbn [dispatcher_String dispatchers writers formatter List.length Nat.eqb];
    rewrite ?fold_left_joined, ?string_app_assoc; cbn [map];
    repeat (rewrite ?string_app_assoc; f_equal).
Qed.

Lemma child_embedded d c :
  In c (dispatchers d) ->
  exists pre post,
    dispatcher_String d = (pre ++ "        ->" ++ dispatcher_String c ++ post)%string.
Proof.
  intros Hin. rewrite dispatcher_String_sections.
  apply in_split in Hin. destruct Hin as [l1 [l2 E]].
  assert (Hsec : dispatchers_section d
                 = (nl ++ joined (map (fun c => "        ->" ++ dispatcher_String c) l1)
                       ++ ("        ->" ++ dispatcher_String c)
                       ++ joined (map (fun c => "        ->" ++ dispatcher_String c) l2))%string).
  { unfold dispatchers_section. rewrite E.
    destruct l1; simpl; [reflexivity |].
    rewrite map_app, joined_app; simpl. rewrite !string_app_assoc. reflexivity. }
  rewrite Hsec.
  exists ("Formatter: " ++ Formatter_String (formatter d) ++ nl
          ++ "    ->Dispatchers:" ++ nl
          ++ joined (map (fun c => "        ->" ++ dispatcher_String c) l1))%string.
  exists (joined (map (fun c => "        ->" ++ dispatcher_String c) l2)
          ++ "    ->Writers:" ++ writers_section d)%string.
  rewrite !string_app_assoc. reflexivity.
Qed.

Lemma descendant_embedded d c :
  descendant c d ->
  exists pre post,
    dispatcher_String d = (pre ++ "        ->" ++ dispatcher_String c ++ post)%string.
Proof.
  induction 1 as [c d Hin | c c' d _ IH Hin].
  - apply child_embedded; exact Hin.
  - destruct IH as [pre' [post' E']].
    destruct (child_embedded d c' Hin) as [pre [post E]].
    exists (pre ++ "        ->" ++ pre')%string, (post' ++ post)%string.
    rewrite E, E'. rewrite !string_app_assoc. reflexivity.
Qed.

(** C8, as the code has it.  The rendering is the formatter's description
    on a line after [Formatter: ], then the dispatchers section, then the
    writers section.  A section without entries reads [none]; otherwise the
    dispatchers section holds, child by child, the fixed eight-space arrow
    followed by the child's own rendering unchanged, and the writers section
    holds, writer by writer, the same arrow, the writer's description and a
    newline.  So the rendering of every node below, at whatever depth, occurs
    in it word for word right after that one arrow: nesting adds no
    indentation of its own. *)
Theorem dispatcher_String_layout (d : dispatcher) :
  dispatcher_String d
  = ("Formatter: " ++ Formatter_String (formatter d) ++ nl
     ++ "    ->Dispatchers:" ++ dispatchers_section d
     ++ "    ->Writers:" ++ writers_section d)%string
  /\ (dispatchers d = [] -> dispatchers_section d = ("none" ++ nl)%string)
  /\ (dispatchers d <> [] ->
      dispatchers_section d
      = (nl ++ joined (map (fun c => "        ->" ++ dispatcher_String c)
                           (dispatchers d)))%string)
  /\ (writers d = [] -> writers_section d = ("none" ++ nl)%string)
  /\ (writers d <> [] ->
      writers_section d
      = (nl ++ joined (map (fun wr => "        ->" ++ FormattedWriter_String wr ++ nl)
                           (writers d)))%string)
  /\ (forall c, descendant c d ->
                exists pre post,
                  dispatcher_String d
                  = (pre ++ "        ->" ++ dispatcher_String c ++ post)%string).
Proof.
  split; [apply dispatcher_String_sections |].
  unfold dispatchers_section, writers_section.
  split; [intros ->; reflexivity |].
  split; [destruct (dispatchers d); [contradiction | reflexivity] |].
  split; [intros ->; reflexivity |].
  split; [destruct (writers d); [contradiction | reflexivity] |].
  intros c Hc. apply descendant_embedded; exact Hc.
Qed.

(** ** Dispatch as a flat loop *)

Lemma outcome_eta (A : Type) (o : outcome A) :
  mkOutcome (value o) (final o) (events o) = o.
Proof. destruct o; reflexivity. Qed.

Lemma forRange_app (A : Type) (body : A -> M unit) xs ys :
  forall w, forRange body (xs ++ ys) w
            = bind (forRange body xs) (fun _ => forRange body ys) w.
Proof.
  induction xs as [|x xs IH]; intros w; simpl.
  - unfold bind; simpl. symmetry; apply outcome_eta.
  - unfold bind at 1. rewrite IH. unfold bind; simpl.
    rewrite app_assoc. reflexivity.
Qed.

Lemma forRange_flat (A B : Type) (body : A -> M unit) (flat : B -> M unit)
      (g : A -> list B) xs :
  Forall (fun x => forall w, body x w = forRange flat (g x) w) xs ->
  forall w, forRange body xs w = forRange flat (flat_map g xs) w.
Proof.
  intros HF; induction HF as [|x xs Hx _ IH]; intros w; simpl.
  - reflexivity.
  - rewrite forRange_app. unfold bind. rewrite Hx, IH. reflexivity.
Qed.

Lemma Dispatch_as_loop d m l c ef :
  forall w, Dispatch d m l c ef w = forRange (deliver m l c ef) (dispatch_order d) w.
Proof.
  induction d as [f ws cs IH] using dispatcher_tree_ind; intros w.
  rewrite Dispatch_unfold. simpl dispatch_order. rewrite forRange_app.
  unfold bind. rewrite (forRange_flat _ (deliver m l c ef) dispatch_order IH).
  reflexivity.
Qed.

(** X1.  For [Dispatch] the shape of the tree does not matter beyond the
    order it gives the writers: value, world and log are those of one loop
    over [dispatch_order], each writer written to and, on an error, the
    callback called.  Two trees with the same [dispatch_order] cannot be
    told apart by dispatching. *)
Theorem Dispatch_is_flat_loop
        (d d' : dispatcher) (m : string) (l : LogLevel) (c : LogContext)
        (ef : error -> World -> World) (w : World) :
  Dispatch d m l c ef w = forRange (deliver m l c ef) (dispatch_order d) w
  /\ (dispatch_order d = dispatch_order d' ->
      Dispatch d m l c ef w = Dispatch d' m l c ef w).
Proof.
  split; [apply Dispatch_as_loop |].
  intros E. rewrite !Dispatch_as_loop, E. reflexivity.
Qed.

Lemma delivered_no_sink_call t : delivered t -> Forall (fun ev => ~ is_sink_call ev) t.
Proof.
  induction 1; repeat constructor; try assumption; intros [].
Qed.

(** X2.  [Dispatch] only writes and reports: it never flushes and never
    closes a sink, so what a sink buffers stays buffered until [Flush] or
    [Close]. *)
Theorem Dispatch_never_flushes_or_closes
        (d : dispatcher) (m : string) (l : LogLevel) (c : LogContext)
        (ef : error -> World -> World) (w : World) :
  sink_calls (events (Dispatch d m l c ef w)) = []
  /\ Forall (fun ev => ~ is_sink_call ev) (events (Dispatch d m l c ef w)).
Proof.
  assert (HF : Forall (fun ev => ~ is_sink_call ev) (events (Dispatch d m l c ef w)))
    by apply delivered_no_sink_call, Dispatch_delivered.
  split; [| exact HF].
  induction HF as [|ev t Hev _ IH]; [reflexivity |].
  destruct ev; simpl in *; try exact IH; exfalso; apply Hev; exact I.
Qed.

Lemma failures_app a b : failures (a ++ b) = failures a ++ failures b.
Proof. apply flat_map_app. Qed.

Lemma deliver_ignores_callback m l c ef1 ef2 wr w :
  failures (events (deliver m l c ef1 wr w)) = [] ->
  deliver m l c ef2 wr w = deliver m l c ef1 wr w.
Proof.
  unfold deliver, bind, callWrite; simpl.
  destruct (snd (FormattedWriter_Write wr m l c w)); simpl;
    [discriminate | reflexivity].
Qed.

Lemma loop_ignores_callback m l c ef1 ef2 ws :
  forall w,
    failures (events (forRange (deliver m l c ef1) ws w)) = [] ->
    forRange (deliver m l c ef2) ws w = forRange (deliver m l c ef1) ws w.
Proof.
  induction ws as [|wr ws IH]; intros w Hf; [reflexivity |].
  change (failures (events (bind (deliver m l c ef1 wr)
                                 (fun _ => forRange (deliver m l c ef1) ws) w)) = [])
    in Hf.
  unfold bind in Hf; cbn [events] in Hf.
  rewrite failures_app in Hf. apply app_eq_nil in Hf. destruct Hf as [H1 H2].
  change (bind (deliver m l c ef2 wr) (fun _ => forRange (deliver m l c ef2) ws) w
          = bind (deliver m l c ef1 wr) (fun _ => forRange (deliver m l c ef1) ws) w).
  unfold bind. rewrite (deliver_ignores_callback _ _ _ _ ef2 _ _ H1).
  rewrite (IH _ H2). reflexivity.
Qed.

(** X3.  The error callback matters only when a write fails: if no write of
    a [Dispatch] returned an error, the same [Dispatch] with any other
    callback has the same log and leaves the same world. *)
Theorem Dispatch_without_failures_ignores_callback
        (d : dispatcher) (m : string) (l : LogLevel) (c : LogContext)
        (ef1 ef2 : error -> World -> World) (w : World) :
  failures (events (Dispatch d m l c ef1 w)) = [] ->
  Dispatch d m l c ef2 w = Dispatch d m l c ef1 w
  /\ reported (events (Dispatch d m l c ef2 w)) = [].
Proof.
  intros Hf. rewrite Dispatch_as_loop in Hf.
  assert (E : Dispatch d m l c ef2 w = Dispatch d m l c ef1 w).
  { rewrite !Dispatch_as_loop. apply loop_ignores_callback. exact Hf. }
  split; [exact E |]. rewrite E, Dispatch_as_loop.
  rewrite <- Hf. rewrite <- !Dispatch_as_loop.
  apply delivered_reported, Dispatch_delivered.
Qed.


(** ** Close as a flat program *)

Lemma forRangeErr_app (A : Type) (body : A -> M (option error)) xs ys :
  forall w, forRangeErr body (xs ++ ys) w
            = bind (forRangeErr body xs) (stopOrGo (forRangeErr body ys)) w.
Proof.
  induction xs as [|x xs IH]; intros w; simpl.
  - unfold bind; simpl. symmetry; apply outcome_eta.
  - unfold bind at 1 3. destruct (value (body x w)) as [e|] eqn:E.
    + unfold bind; simpl. rewrite E; simpl. rewrite !app_nil_r. reflexivity.
    + rewrite IH. unfold bind; simpl. rewrite E; simpl.
      rewrite app_assoc. reflexivity.
Qed.

Lemma forRangeErr_flat (A B : Type) (body : A -> M (option error))
      (flat : B -> M (option error)) (g : A -> list B) xs :
  Forall (fun x => forall w, body x w = forRangeErr flat (g x) w) xs ->
  forall w, forRangeErr body xs w = forRangeErr flat (flat_map g xs) w.
Proof.
  intros HF; induction HF as [|x xs Hx _ IH]; intros w; simpl.
  - reflexivity.
  - rewrite forRangeErr_app. unfold bind. rewrite <- Hx.
    destruct (value (body x w)); simpl; [reflexivity |].
    rewrite IH. reflexivity.
Qed.

Lemma run_flushes_as_calls l :
  Forall (fun s => flushable s = true) l ->
  forall w, run_calls (map CallFlush l) w
            = mkOutcome None (run_flushes l w) (map EvFlush l).
Proof.
  intros HF; induction HF as [|s l Hs _ IH]; intros w; [reflexivity |].
  unfold run_calls in *. simpl. unfold bind at 1. unfold flushable in Hs.
  unfold run_flushes at 1; simpl.
  destruct (asFlusher s) as [flusher|]; [| discriminate].
  simpl. rewrite IH. reflexivity.
Qed.

Lemma Flush_as_calls d w :
  run_calls (map CallFlush (flush_order d)) w
  = mkOutcome None (final (Flush d w)) (events (Flush d w)).
Proof.
  rewrite Flush_final, Flush_events. apply run_flushes_as_calls.
  apply Forall_forall. intros s Hs. apply flush_order_sinks in Hs. apply Hs.
Qed.

Lemma closeWriter_as_calls fw w :
  closeWriter fw w = run_calls (teardown_writer fw) w.
Proof.
  unfold closeWriter, teardown_writer, flushWriter, flushable, closable, run_calls.
  destruct (asFlusher (FormattedWriter_Writer fw)) as [flusher|] eqn:EF;
    destruct (asCloser (FormattedWriter_Writer fw)) as [closer|] eqn:EC;
    simpl; unfold bind; simpl; rewrite ?EF, ?EC; simpl;
    try destruct (snd (closer _)); simpl; rewrite ?app_nil_r; reflexivity.
Qed.

Lemma Close_as_calls d : forall w, Close d w = run_calls (close_order d) w.
Proof.
  induction d as [f ws cs IH] using dispatcher_tree_ind; intros w.
  rewrite Close_unfold. simpl close_order. unfold run_calls.
  rewrite forRangeErr_app.
  assert (Hc : forall w', forRangeErr (closeChild Close) cs w'
                          = forRangeErr runCall
                              (flat_map (fun c => map CallFlush (flush_order c) ++ close_order c) cs)
                              w').
  { apply forRangeErr_flat. rewrite Forall_forall in *. intros c Hc w'.
    rewrite forRangeErr_app. unfold bind at 1.
    fold (run_calls (map CallFlush (flush_order c))). rewrite Flush_as_calls.
    simpl. unfold closeChild, bind. rewrite (IH c Hc). reflexivity. }
  assert (Hw : forall w', forRangeErr closeWriter ws w'
                          = forRangeErr runCall (flat_map teardown_writer ws) w').
  { apply forRangeErr_flat. apply Forall_forall. intros fw _ w'.
    apply closeWriter_as_calls. }
  unfold bind. rewrite Hc.
  destruct (value (forRangeErr runCall _ w)); simpl; [reflexivity |].
  rewrite Hw. reflexivity.
Qed.

(** X4.  [Close] is the flat program [close_order] run with an early exit:
    its value, the world it leaves and its log are those of performing the
    calls of [close_order] one after the other and stopping at the first
    close that returns an error.  Two trees with the same [close_order] are
    torn down alike. *)
Theorem Close_is_flat_program (d d' : dispatcher) (w : World) :
  Close d w = run_calls (close_order d) w
  /\ (close_order d = close_order d' -> Close d w = Close d' w).
Proof.
  split; [apply Close_as_calls |].
  intros E. rewrite !Close_as_calls, E. reflexivity.
Qed.


(** ** Counting helpers *)

Lemma count_app (p : sinkCall -> bool) a b :
  List.length (filter p (a ++ b)) = List.length (filter p a) + List.length (filter p b).
Proof. rewrite filter_app, length_app. reflexivity. Qed.

Lemma close_order_members d c0 :
  In c0 (close_order d) ->
  match c0 with
  | CallFlush s => In s (sinks d) /\ flushable s = true
  | CallClose s => In s (sinks d) /\ closable s = true
  end.
Proof.
  induction d as [f ws cs IH] using dispatcher_tree_ind.
  simpl. rewrite Forall_forall in IH.
  rewrite !in_app_iff, !in_flat_map. intros [[c [Hc Hs]] | [fw [Hfw Hs]]].
  - assert (Hsub : forall s, In s (sinks c) ->
                             In s (map FormattedWriter_Writer ws)
                             \/ In s (flat_map sinks cs)).
    { intros s Hs'. right. apply in_flat_map. exists c. split; assumption. }
    apply in_app_iff in Hs. destruct Hs as [Hs | Hs].
    + apply in_map_iff in Hs. destruct Hs as [s [<- Hs']].
      apply flush_order_sinks in Hs'. destruct Hs' as [Hs' Hf].
      split; [rewrite in_app_iff; auto | exact Hf].
    + specialize (IH c Hc Hs). destruct c0 as [s|s]; destruct IH as [Hs' Hf];
        (split; [rewrite in_app_iff; auto | exact Hf]).
  - unfold teardown_writer in Hs. apply in_app_iff in Hs.
    assert (Hown : In (FormattedWriter_Writer fw)
                      (map FormattedWriter_Writer ws ++ flat_map sinks cs)).
    { apply in_app_iff. left. apply in_map. exact Hfw. }
    destruct Hs as [Hs | Hs].
    + destruct (flushable (FormattedWriter_Writer fw)) eqn:Ef; simpl in Hs;
        [| contradiction].
      destruct Hs as [<- | []]. split; assumption.
    + destruct (closable (FormattedWriter_Writer fw)) eqn:Ec; simpl in Hs;
        [| contradiction].
      destruct Hs as [<- | []]. split; assumption.
Qed.

Lemma Close_complete_calls d w :
  value (Close d w) = None -> sink_calls (events (Close d w)) = close_order d.
Proof.
  intros Hv. destruct (Close_runs_along d w) as [rest [Hr Hnil]].
  rewrite (Hnil Hv), app_nil_r in Hr. exact Hr.
Qed.

(** X6.  On a tree none of whose sinks can be flushed or closed, [Close]
    returns no error, calls nothing and leaves the world as it was. *)
Theorem Close_without_capabilities (d : dispatcher) (w : World) :
  (forall s, In s (sinks d) -> asFlusher s = None /\ asCloser s = None) ->
  Close d w = mkOutcome None w [].
Proof.
  intros Hnone.
  assert (E : close_order d = []).
  { destruct (close_order d) as [|c0 l] eqn:E; [reflexivity |].
    assert (Hin : In c0 (close_order d)) by (rewrite E; left; reflexivity).
    apply close_order_members in Hin.
    destruct c0 as [s|s]; destruct Hin as [Hs Hf];
      destruct (Hnone s Hs) as [Hfl Hcl].
    - unfold flushable in Hf. rewrite Hfl in Hf. discriminate.
    - unfold closable in Hf. rewrite Hcl in Hf. discriminate. }
  rewrite Close_as_calls, E. reflexivity.
Qed.


(** ** Construction, read backwards *)

Lemma addReceivers_ok_inv f rs :
  forall ws cs d,
    addReceivers (mkDispatcher f ws cs) rs = Ok d ->
    exists sts, Forall2 (fun r st => store_of f r = Ok st) rs sts.
Proof.
  induction rs as [|r rs IH]; intros ws cs d Hd.
  - exists []. constructor.
  - simpl in Hd. destruct r as [[wr|] [s|] [c|]]; simpl in Hd;
      try destruct (NewFormattedWriter s f) as [wr'|e] eqn:E;
      try discriminate;
      destruct (IH _ _ _ Hd) as [sts Hsts];
      eexists (_ :: sts); constructor; try exact Hsts; simpl;
      rewrite ?E; reflexivity.
Qed.

Lemma addReceivers_err_inv f rs :
  forall ws cs e,
    addReceivers (mkDispatcher f ws cs) rs = Err e ->
    exists pre r post sts,
      rs = pre ++ r :: post
      /\ Forall2 (fun r st => store_of f r = Ok st) pre sts
      /\ store_of f r = Err e.
Proof.
  induction rs as [|r rs IH]; intros ws cs e He; [discriminate |].
  simpl in He.
  assert (Hstep : forall st ws' cs',
             store_of f r = Ok st ->
             addReceivers (mkDispatcher f ws' cs') rs = Err e ->
             exists pre r0 post sts,
               r :: rs = pre ++ r0 :: post
               /\ Forall2 (fun r st => store_of f r = Ok st) pre sts
               /\ store_of f r0 = Err e).
  { intros st ws' cs' Hst Hrest.
    destruct (IH _ _ _ Hrest) as [pre [r0 [post [sts [-> [Hpre Hr0]]]]]].
    exists (r :: pre), r0, post, (st :: sts).
    split; [reflexivity |]. split; [constructor; assumption | exact Hr0]. }
  assert (Hhere : store_of f r = Err e ->
                  exists pre r0 post sts,
                    r :: rs = pre ++ r0 :: post
                    /\ Forall2 (fun r st => store_of f r = Ok st) pre sts
                    /\ store_of f r0 = Err e).
  { intros Hr. exists [], r, rs, []. split; [reflexivity |].
    split; [constructor | exact Hr]. }
  destruct r as [[wr|] [s|] [c|]]; simpl in He, Hstep, Hhere.
  - eapply Hstep; [reflexivity | exact He].
  - eapply Hstep; [reflexivity | exact He].
  - eapply Hstep; [reflexivity | exact He].
  - eapply Hstep; [reflexivity | exact He].
  - destruct (NewFormattedWriter s f) as [wr'|e'].
    + eapply Hstep; [reflexivity | exact He].
    + apply Hhere. congruence.
  - destruct (NewFormattedWriter s f) as [wr'|e'].
    + eapply Hstep; [reflexivity | exact He].
    + apply Hhere. congruence.
  - eapply Hstep; [reflexivity | exact He].
  - apply Hhere. congruence.
Qed.

Lemma createDispatcher_nonempty f r rs :
  createDispatcher (Some f) (Some (r :: rs))
  = addReceivers (mkDispatcher f [] []) (r :: rs).
Proof. reflexivity. Qed.

Lemma createDispatcher_ok_inv fmt rs d :
  createDispatcher fmt rs = Ok d ->
  exists f l sts,
    fmt = Some f /\ rs = Some l /\ l <> []
    /\ Forall2 (fun r st => store_of f r = Ok st) l sts
    /\ d = mkDispatcher f (writers_in sts) (children_in sts).
Proof.
  intros Hd. destruct fmt as [f|]; [| discriminate].
  destruct rs as [[|r l]|]; try discriminate.
  rewrite createDispatcher_nonempty in Hd.
  destruct (addReceivers_ok_inv _ _ _ _ Hd) as [sts Hsts].
  exists f, (r :: l), sts. split; [reflexivity |]. split; [reflexivity |].
  split; [discriminate |]. split; [exact Hsts |].
  rewrite (@addReceivers_ok f (r :: l) sts Hsts [] []) in Hd.
  inversion Hd. reflexivity.
Qed.

Lemma stored_split_length sts :
  List.length (writers_in sts) + List.length (children_in sts) = List.length sts.
Proof.
  induction sts as [|[wr|c] sts IH]; simpl; [reflexivity | |]; lia.
Qed.

Lemma store_of_kind f r st :
  store_of f r = Ok st ->
  writer_like r = is_stored_writer st
  /\ dispatcher_like r = is_stored_child st
  /\ (writer_like r || dispatcher_like r)%bool = true.
Proof.
  destruct r as [[wr|] [s|] [c|]]; simpl;
    try destruct (NewFormattedWriter s f); intros E; inversion E; subst;
    repeat split; reflexivity.
Qed.

(** X7.  A node that [createDispatcher] returns was given a formatter and
    a non-empty list of receivers, every one of them writer-like or
    dispatcher-like; it has that formatter, and each receiver was stored
    exactly once, as a writer or as a child, so the node is never without
    both writers and children. *)
Theorem createDispatcher_success_means
        (fmt : option Formatter) (rs : option (list receiver)) (d : dispatcher) :
  createDispatcher fmt rs = Ok d ->
  exists f l,
    fmt = Some f /\ rs = Some l /\ l <> []
    /\ formatter d = f
    /\ Forall (fun r => (writer_like r || dispatcher_like r)%bool = true) l
    /\ List.length (writers d) + List.length (dispatchers d) = List.length l
    /\ (writers d <> [] \/ dispatchers d <> []).
Proof.
  intros Hd.
  destruct (createDispatcher_ok_inv _ _ Hd) as [f [l [sts [-> [-> [Hne [Hsts ->]]]]]]].
  exists f, l. split; [reflexivity |]. split; [reflexivity |].
  split; [exact Hne |]. split; [reflexivity |].
  assert (Hlen : List.length (writers_in sts) + List.length (children_in sts)
                 = List.length l).
  { rewrite stored_split_length. symmetry. eapply Forall2_length; exact Hsts. }
  split; [| split; [exact Hlen |]].
  - clear Hd Hne Hlen. induction Hsts as [|r st l sts Hr _ IH]; constructor.
    + apply (store_of_kind _ _ Hr).
    + exact IH.
  - cbn [writers dispatchers].
    destruct (writers_in sts) as [|wr ws]; [| left; discriminate].
    destruct (children_in sts) as [|c cs]; [| right; discriminate].
    destruct l; [contradiction | simpl in Hlen; discriminate].
Qed.

(** X8.  The errors [createDispatcher] can return are these and no others:
    [NilFormatter] for a nil formatter; [EmptyReceivers] for a nil or empty
    list; and, from the first receiver that cannot be stored, either
    [UnsupportedReceiverType] when it passes none of the three type
    assertions or the error of [NewFormattedWriter] when it is an
    [io.Writer] that is not a formatted writer. *)
Theorem createDispatcher_failure_means
        (fmt : option Formatter) (rs : option (list receiver)) (e : error) :
  createDispatcher fmt rs = Err e ->
  (fmt = None /\ e = NilFormatter)
  \/ (fmt <> None /\ (rs = None \/ rs = Some []) /\ e = EmptyReceivers)
  \/ (exists f pre r post sts,
         fmt = Some f /\ rs = Some (pre ++ r :: post)
         /\ Forall2 (fun r st => store_of f r = Ok st) pre sts
         /\ asFormattedWriter r = None
         /\ ((asIoWriter r = None /\ asDispatcherInterface r = None
              /\ e = UnsupportedReceiverType)
             \/ (exists s, asIoWriter r = Some s
                           /\ NewFormattedWriter s f = Err e))).
Proof.
  intros He. destruct fmt as [f|].
  2:{ left. simpl in He. inversion He. auto. }
  right. destruct rs as [[|r0 l]|].
  - left. simpl in He. inversion He. split; [discriminate | auto].
  - right. rewrite createDispatcher_nonempty in He.
    destruct (addReceivers_err_inv _ _ _ _ He) as [pre [r [post [sts [E [Hpre Hr]]]]]].
    exists f, pre, r, post, sts. split; [reflexivity |].
    split; [rewrite E; reflexivity |]. split; [exact Hpre |].
    destruct r as [[wr|] [s|] [c|]]; simpl in Hr; try discriminate;
      (split; [reflexivity |]).
    + right. exists s. split; [reflexivity |].
      destruct (NewFormattedWriter s f); [discriminate | congruence].
    + right. exists s. split; [reflexivity |].
      destruct (NewFormattedWriter s f); [discriminate | congruence].
    + left. inversion Hr. auto.
  - left. simpl in He. inversion He. split; [discriminate | auto].
Qed.


Lemma Forall2_filter (A B : Type) (R : A -> B -> Prop) (p : A -> bool) (q : B -> bool) l1 l2 :
  Forall2 R l1 l2 ->
  (forall a b, R a b -> p a = q b) ->
  Forall2 R (filter p l1) (filter q l2).
Proof.
  intros HF Hpq. induction HF as [|a b l1 l2 Hab _ IH]; simpl; [constructor |].
  rewrite <- (Hpq a b Hab). destruct (p a); [constructor; assumption | exact IH].
Qed.

Lemma writers_in_app a b : writers_in (a ++ b) = writers_in a ++ writers_in b.
Proof. apply flat_map_app. Qed.

Lemma children_in_app a b : children_in (a ++ b) = children_in a ++ children_in b.
Proof. apply flat_map_app. Qed.

Lemma stored_filters sts :
  writers_in (filter is_stored_writer sts) = writers_in sts
  /\ writers_in (filter is_stored_child sts) = []
  /\ children_in (filter is_stored_writer sts) = []
  /\ children_in (filter is_stored_child sts) = children_in sts
  /\ List.length (filter is_stored_writer sts) + List.length (filter is_stored_child sts)
     = List.length sts.
Proof.
  induction sts as [|[wr|c] sts [IH1 [IH2 [IH3 [IH4 IH5]]]]]; simpl.
  - auto.
  - rewrite IH1. repeat split; try assumption. lia.
  - rewrite IH4. repeat split; try assumption. lia.
Qed.

Lemma stored_regrouped sts :
  writers_in (filter is_stored_writer sts ++ filter is_stored_child sts) = writers_in sts
  /\ children_in (filter is_stored_writer sts ++ filter is_stored_child sts)
     = children_in sts
  /\ List.length (filter is_stored_writer sts ++ filter is_stored_child sts)
     = List.length sts.
Proof.
  destruct (stored_filters sts) as [H1 [H2 [H3 [H4 H5]]]].
  rewrite writers_in_app, children_in_app, length_app, H1, H2, H3, H4, app_nil_r.
  auto.
Qed.

(** X9.  How writers and dispatchers alternate in the receiver list leaves
    no trace in the node: when [createDispatcher] succeeds on a list, it
    returns the very same node on the list regrouped with all writer-like
    receivers first and all dispatcher-like receivers after them.  A
    dispatcher registered before a writer is therefore still dispatched to
    after it. *)
Theorem createDispatcher_forgets_interleaving
        (f : Formatter) (rs : list receiver) (d : dispatcher) :
  createDispatcher (Some f) (Some rs) = Ok d ->
  createDispatcher (Some f)
                   (Some (filter writer_like rs ++ filter dispatcher_like rs))
  = Ok d.
Proof.
  intros Hd.
  destruct (createDispatcher_ok_inv _ _ Hd) as [f' [l [sts [Ef [El [Hne [Hsts ->]]]]]]].
  inversion Ef; subst f'. inversion El; subst l. clear Ef El.
  assert (H2 : Forall2 (fun r st => store_of f r = Ok st)
                       (filter writer_like rs ++ filter dispatcher_like rs)
                       (filter is_stored_writer sts ++ filter is_stored_child sts)).
  { apply Forall2_app.
    - apply Forall2_filter; [exact Hsts |]. intros r st Hr.
      apply (store_of_kind _ _ Hr).
    - apply Forall2_filter; [exact Hsts |]. intros r st Hr.
      apply (store_of_kind _ _ Hr). }
  destruct (stored_regrouped sts) as [Ew [Ec El]].
  destruct (filter writer_like rs ++ filter dispatcher_like rs) as [|r l] eqn:E.
  - exfalso. apply Forall2_length in H2. apply Forall2_length in Hsts.
    rewrite El in H2. simpl in H2. destruct rs; [contradiction |].
    simpl in Hsts. lia.
  - rewrite createDispatcher_nonempty.
    rewrite (@addReceivers_ok f (r :: l) _ H2 [] []). simpl.
    rewrite Ew, Ec. reflexivity.
Qed.

Lemma constructed_has_writer d : constructed d -> dispatch_order d <> [].
Proof.
  induction 1 as [f rs d Hd _ IH].
  destruct (createDispatcher_ok_inv _ _ Hd) as [f' [l [sts [_ [_ [Hne [Hsts E]]]]]]].
  assert (Hlen : List.length (writers d) + List.length (dispatchers d) = List.length l).
  { rewrite E; cbn [writers dispatchers]. rewrite stored_split_length.
    symmetry. eapply Forall2_length; exact Hsts. }
  destruct d as [fd ws cs]; cbn [writers dispatchers] in *. simpl dispatch_order.
  destruct ws as [|wr ws]; [| discriminate].
  destruct cs as [|c cs].
  - destruct l; [contradiction | simpl in Hlen; discriminate].
  - simpl. intros Hnil. apply app_eq_nil in Hnil. destruct Hnil as [Hc _].
    exact (IH c (or_introl eq_refl) Hc).
Qed.

(** ** More on the rendering *)

Lemma joined_ends_with (A : Type) (g h : A -> string) (tail : string) l :
  (forall x, g x = (h x ++ tail)%string) ->
  l <> [] ->
  exists body, joined (map g l) = (body ++ tail)%string.
Proof.
  intros Hg. induction l as [|x l IH]; intros Hne; [contradiction |].
  destruct l as [|y l].
  - exists (h x). simpl. rewrite string_app_nil_r. apply Hg.
  - destruct IH as [body E]; [discriminate |].
    exists (g x ++ body)%string.
    change (joined (map g (x :: y :: l))) with (g x ++ joined (map g (y :: l)))%string.
    rewrite E. symmetry; apply string_app_assoc.
Qed.

Lemma writer_lines_end_with_newline ws :
  ws <> [] ->
  exists body,
    joined (map (fun wr => "        ->" ++ FormattedWriter_String wr ++ nl)%string ws)
    = (body ++ nl)%string.
Proof.
  apply joined_ends_with
    with (h := fun wr => ("        ->" ++ FormattedWriter_String wr)%string).
  intros wr. symmetry; apply string_app_assoc.
Qed.

(** X11.  Every rendering ends with a newline.  The parent relies on it: it
    puts no newline of its own after a child's rendering, so it is the
    child's final newline that makes the next entry start on a new line. *)
Theorem dispatcher_String_ends_with_newline (d : dispatcher) :
  exists body, dispatcher_String d = (body ++ nl)%string.
Proof.
  rewrite dispatcher_String_sections. unfold writers_section.
  destruct (writers d) as [|wr ws] eqn:E.
  - exists ("Formatter: " ++ Formatter_String (formatter d) ++ nl
            ++ "    ->Dispatchers:" ++ dispatchers_section d
            ++ "    ->Writers:" ++ "none")%string.
    rewrite !string_app_assoc. reflexivity.
  - destruct (@writer_lines_end_with_newline (wr :: ws)) as [body Hb]; [discriminate |].
    rewrite Hb.
    exists ("Formatter: " ++ Formatter_String (formatter d) ++ nl
            ++ "    ->Dispatchers:" ++ dispatchers_section d
            ++ "    ->Writers:" ++ nl ++ body)%string.
    rewrite !string_app_assoc. reflexivity.
Qed.

Lemma own_writer_embedded d wr :
  In wr (writers d) ->
  exists pre post,
    dispatcher_String d
    = (pre ++ "        ->" ++ FormattedWriter_String wr ++ nl ++ post)%string.
Proof.
  intros Hin. rewrite dispatcher_String_sections.
  apply in_split in Hin. destruct Hin as [l1 [l2 E]].
  assert (Hsec : writers_section d
                 = (nl ++ joined (map (fun wr => "        ->" ++ FormattedWriter_String wr ++ nl) l1)
                       ++ ("        ->" ++ FormattedWriter_String wr ++ nl)
                       ++ joined (map (fun wr => "        ->" ++ FormattedWriter_String wr ++ nl) l2))%string).
  { unfold writers_section. rewrite E.
    destruct l1; simpl; [reflexivity |].
    rewrite map_app, joined_app; simpl. rewrite !string_app_assoc. reflexivity. }
  rewrite Hsec.
  exists ("Formatter: " ++ Formatter_String (formatter d) ++ nl
          ++ "    ->Dispatchers:" ++ dispatchers_section d
          ++ "    ->Writers:" ++ nl
          ++ joined (map (fun wr => "        ->" ++ FormattedWriter_String wr ++ nl) l1))%string.
  exists (joined (map (fun wr => "        ->" ++ FormattedWriter_String wr ++ nl)%string l2)).
  rewrite !string_app_assoc. reflexivity.
Qed.

(** X12.  The rendering leaves no writer out: every writer a [Dispatch]
    would write to, the node's own and those of all nodes below, has its
    description in the text, on a line entry of its own after the
    eight-space arrow. *)
Theorem dispatcher_String_mentions_every_writer (d : dispatcher) (wr : FormattedWriter) :
  In wr (dispatch_order d) ->
  exists pre post,
    dispatcher_String d
    = (pre ++ "        ->" ++ FormattedWriter_String wr ++ nl ++ post)%string.
Proof.
  revert wr. induction d as [f ws cs IH] using dispatcher_tree_ind. intros wr.
  simpl dispatch_order. rewrite in_app_iff, in_flat_map.
  intros [Hown | [c [Hc Hin]]].
  - apply own_writer_embedded. exact Hown.
  - rewrite Forall_forall in IH. destruct (IH c Hc wr Hin) as [pre' [post' E']].
    destruct (child_embedded (mkDispatcher f ws cs) c Hc) as [pre [post E]].
    exists (pre ++ "        ->" ++ pre')%string, (post' ++ post)%string.
    rewrite E, E'. rewrite !string_app_assoc. reflexivity.
Qed.


(** ** The synchronous logger *)

(** X13.  [SyncLogger.Close] has no result and drops the error of the root
    dispatcher's [Close].  When that [Close] stops at a sink close that
    returned an error, the logger's [Close] still returns normally: the
    failed close is the last call it made, the calls after it in
    [close_order] were never made, and the world is left as the failed
    teardown left it. *)
Theorem SyncLogger_Close_hides_failure (sl : SyncLogger) (w : World) (e : error) :
  value (Close (RootDispatcher (config sl)) w) = Some e ->
  final (SyncLogger_Close sl w) = final (Close (RootDispatcher (config sl)) w)
  /\ (exists pre s,
         events (SyncLogger_Close sl w) = pre ++ [EvClose s (Some e)]
         /\ no_close_failure pre)
  /\ (exists rest,
         sink_calls (events (SyncLogger_Close sl w)) ++ rest
         = close_order (RootDispatcher (config sl))).
Proof.
  intros Hv. unfold SyncLogger_Close, bind; simpl. rewrite app_nil_r.
  split; [reflexivity |]. split.
  - pose proof (Close_stops_at_failure (RootDispatcher (config sl)) w) as HQ.
    unfold fail_fast in HQ. rewrite Hv in HQ. exact HQ.
  - destruct (Close_runs_along (RootDispatcher (config sl)) w) as [rest [Hr _]].
    exists rest. exact Hr.
Qed.


(** ** Dispatch on the world *)

Lemma deliver_as_step m l c ef wr w :
  deliver m l c ef wr w
  = mkOutcome tt (write_step m l c ef w wr) (write_log m l c w wr).
Proof.
  unfold deliver, bind, callWrite, write_step, write_log; simpl.
  destruct (snd (FormattedWriter_Write wr m l c w)); reflexivity.
Qed.

Lemma loop_as_deliveries m l c ef ws :
  forall w,
    forRange (deliver m l c ef) ws w
    = mkOutcome tt (deliveries_world m l c ef ws w) (deliveries_log m l c ef ws w).
Proof.
  induction ws as [|wr ws IH]; intros w; [reflexivity |].
  change (forRange (deliver m l c ef) (wr :: ws) w)
    with (bind (deliver m l c ef wr) (fun _ => forRange (deliver m l c ef) ws) w).
  unfold bind. rewrite deliver_as_step. cbn [value final events].
  rewrite IH. reflexivity.
Qed.

Lemma Dispatch_as_deliveries d m l c ef w :
  Dispatch d m l c ef w
  = mkOutcome tt (deliveries_world m l c ef (dispatch_order d) w)
              (deliveries_log m l c ef (dispatch_order d) w).
Proof. rewrite Dispatch_as_loop. apply loop_as_deliveries. Qed.

Lemma deliveries_world_app m l c ef a b w :
  deliveries_world m l c ef (a ++ b) w
  = deliveries_world m l c ef b (deliveries_world m l c ef a w).
Proof. unfold deliveries_world. apply fold_left_app. Qed.

Lemma deliveries_log_app m l c ef a b :
  forall w,
    deliveries_log m l c ef (a ++ b) w
    = deliveries_log m l c ef a w
      ++ deliveries_log m l c ef b (deliveries_world m l c ef a w).
Proof.
  induction a as [|wr a IH]; intros w; [reflexivity |].
  simpl. rewrite IH, app_assoc. reflexivity.
Qed.

Lemma written_deliveries m l c ef ws w :
  written (deliveries_log m l c ef ws w) = map (fun wr => (wr, m, l, c)) ws.
Proof.
  rewrite <- (written_own m l c ef ws w), loop_as_deliveries. reflexivity.
Qed.

Lemma forRange_final_fold (A : Type) (body : A -> M unit) (h : World -> A -> World) xs :
  (forall x w, final (body x w) = h w x) ->
  forall w, final (forRange body xs w) = fold_left h xs w.
Proof.
  intros Hb. induction xs as [|x xs IH]; intros w; [reflexivity |].
  simpl. rewrite IH, Hb. reflexivity.
Qed.

(** C3.  One [Dispatch] serves the node's own writers first, in
    registration order, and only then the children's subtrees, in
    registration order and each again own writers first.  The log is the log
    of writing the event to the own writers in turn, from the world at the
    call, followed by the log of writing it to the writers of the children's
    subtrees in turn, from the world the own writers left; the world at the
    end is the one these writes (and the callbacks for the failed ones)
    produce in that order. *)
Theorem Dispatch_writers_then_children
        (d : dispatcher) (m : string) (l : LogLevel) (c : LogContext)
        (ef : error -> World -> World) (w : World) :
  exists own below,
    events (Dispatch d m l c ef w) = own ++ below
    /\ written own = map (fun wr => (wr, m, l, c)) (writers d)
    /\ written below
       = map (fun wr => (wr, m, l, c)) (flat_map dispatch_order (dispatchers d))
    /\ written (events (Dispatch d m l c ef w))
       = map (fun wr => (wr, m, l, c)) (dispatch_order d)
    /\ own = deliveries_log m l c ef (writers d) w
    /\ below
       = deliveries_log m l c ef (flat_map dispatch_order (dispatchers d))
                        (deliveries_world m l c ef (writers d) w)
    /\ final (Dispatch d m l c ef w)
       = deliveries_world m l c ef (flat_map dispatch_order (dispatchers d))
                          (deliveries_world m l c ef (writers d) w).
Proof.
  exists (deliveries_log m l c ef (writers d) w).
  exists (deliveries_log m l c ef (flat_map dispatch_order (dispatchers d))
                         (deliveries_world m l c ef (writers d) w)).
  rewrite Dispatch_as_deliveries. cbn [events final].
  destruct d as [f ws cs]. cbn [writers dispatchers]. simpl dispatch_order.
  split; [apply deliveries_log_app |].
  split; [apply written_deliveries |].
  split; [apply written_deliveries |].
  split; [apply written_deliveries |].
  split; [reflexivity |]. split; [reflexivity |].
  apply deliveries_world_app.
Qed.

(** C1.  One [Dispatch] applies [Write] to every writer of the node and,
    through the children, of the whole subtree, whatever any of these writes
    returns: a write that returns an error is followed at once by the
    error callback, applied with that error to the world the write left, and
    the next writer is written to in the world the callback left; the
    callback gets nothing else.  When the writers of the tree are [W1], whose
    [Write] always returns an error, and [W2], whose [Write] never does,
    dispatching the events [msgs] one after the other applies, for each
    event, the callback once (after [W1]'s write) and [W2]'s write once: the
    callback is called once per event and [W2] accepts every event, in
    order. *)
Theorem Dispatch_isolates_failures (d : dispatcher) (ef : error -> World -> World) :
  (forall m l c w,
      written (events (Dispatch d m l c ef w))
      = map (fun wr => (wr, m, l, c)) (dispatch_order d)
      /\ delivered (events (Dispatch d m l c ef w))
      /\ reported (events (Dispatch d m l c ef w))
         = failures (events (Dispatch d m l c ef w))
      /\ events (Dispatch d m l c ef w)
         = deliveries_log m l c ef (dispatch_order d) w
      /\ final (Dispatch d m l c ef w)
         = deliveries_world m l c ef (dispatch_order d) w)
  /\ (forall W1 W2 msgs w,
         Permutation [W1; W2] (dispatch_order d) ->
         (forall m l c w', snd (FormattedWriter_Write W1 m l c w') <> None) ->
         (forall m l c w', snd (FormattedWriter_Write W2 m l c w') = None) ->
         callback_count (events (dispatchAll d ef msgs w)) = List.length msgs
         /\ received_by W2 (events (dispatchAll d ef msgs w)) = msgs
         /\ final (dispatchAll d ef msgs w)
            = fold_left (fun w' msg =>
                           deliveries_world (fst (fst msg)) (snd (fst msg)) (snd msg) ef
                                            (dispatch_order d) w')
                        msgs w
         /\ (forall m l c w',
                exists e,
                  snd (FormattedWriter_Write W1 m l c w') = Some e
                  /\ write_step m l c ef w' W1
                     = ef e (fst (FormattedWriter_Write W1 m l c w')))
         /\ (forall m l c w',
                write_step m l c ef w' W2 = fst (FormattedWriter_Write W2 m l c w'))).
Proof.
  split.
  - intros m l c w. split; [apply Dispatch_written |].
    split; [apply Dispatch_delivered |].
    split; [apply delivered_reported, Dispatch_delivered |].
    rewrite Dispatch_as_deliveries. split; reflexivity.
  - intros W1 W2 msgs w HP Hfail Hok.
    destruct (@dispatchAll_two_writers W1 W2 Hfail Hok d ef msgs w HP) as [Hn Hr].
    split; [exact Hn |]. split; [exact Hr |]. split; [| split].
    + unfold dispatchAll. apply forRange_final_fold.
      intros [[m l] c] w'. rewrite Dispatch_as_deliveries. reflexivity.
    + intros m l c w'. unfold write_step.
      destruct (snd (FormattedWriter_Write W1 m l c w')) as [e|] eqn:E.
      * exists e. split; reflexivity.
      * exfalso. exact (Hfail _ _ _ _ E).
    + intros m l c w'. unfold write_step. rewrite Hok. reflexivity.
Qed.


(** ** Close on the world *)

Lemma run_calls_as_perform l : forall w, run_calls l w = perform l w.
Proof.
  unfold run_calls. induction l as [|c l IH]; intros w; [reflexivity |].
  change (forRangeErr runCall (c :: l) w)
    with (bind (runCall c) (stopOrGo (forRangeErr runCall l)) w).
  destruct c as [s|s]; simpl perform; unfold runCall.
  - destruct (asFlusher s) as [flusher|].
    + unfold bind; simpl. rewrite IH. reflexivity.
    + unfold bind; simpl. rewrite IH. apply outcome_eta.
  - destruct (asCloser s) as [closer|].
    + unfold bind, callClose; simpl.
      destruct (snd (closer w)) as [e|]; simpl; [reflexivity |].
      rewrite IH. reflexivity.
    + unfold bind; simpl. rewrite IH. apply outcome_eta.
Qed.

Lemma Close_as_perform d w : Close d w = perform (close_order d) w.
Proof. rewrite Close_as_calls. apply run_calls_as_perform. Qed.

Lemma perform_app a b w :
  value (perform (a ++ b) w) = None ->
  value (perform a w) = None
  /\ value (perform b (final (perform a w))) = None
  /\ final (perform (a ++ b) w) = final (perform b (final (perform a w)))
  /\ events (perform (a ++ b) w)
     = events (perform a w) ++ events (perform b (final (perform a w))).
Proof.
  rewrite <- !run_calls_as_perform. unfold run_calls.
  rewrite forRangeErr_app. unfold bind.
  destruct (value (forRangeErr runCall a w)) as [e|]; simpl; [discriminate |].
  auto.
Qed.

Lemma perform_flushes l :
  Forall (fun s => flushable s = true) l ->
  forall w, perform (map CallFlush l) w
            = mkOutcome None (run_flushes l w) (map EvFlush l).
Proof.
  intros HF w. rewrite <- run_calls_as_perform. apply run_flushes_as_calls. exact HF.
Qed.

Lemma flush_order_all_flushable d :
  Forall (fun s => flushable s = true) (flush_order d).
Proof.
  apply Forall_forall. intros s Hs. apply flush_order_sinks in Hs. apply Hs.
Qed.

(** C5.  [Close] is the teardown of [close_order] applied to the world:
    first, child by child in registration order, the flushes of the child's
    whole subtree and then the child's own teardown; after the children,
    writer by writer in registration order, the sink's flush if it has one
    and then its close if it has one; the first close that returns an error
    ends it with that error.  Its calls are sink flushes and closes only:
    all of [close_order] when no error is returned, an initial part of it
    otherwise.  Every close of a sink that has a flush method comes right
    after a flush of that same sink, so nothing is closed unflushed and no
    flush is needed before [Close]. *)
Theorem Close_children_then_writers (d : dispatcher) (w : World) :
  Close d w
  = perform (flat_map (fun c => map CallFlush (flush_order c) ++ close_order c)
                      (dispatchers d)
             ++ flat_map teardown_writer (writers d)) w
  /\ Forall is_sink_call (events (Close d w))
  /\ (exists rest,
         sink_calls (events (Close d w)) ++ rest
         = flat_map (fun c => map CallFlush (flush_order c) ++ close_order c)
                    (dispatchers d)
           ++ flat_map teardown_writer (writers d)
         /\ (value (Close d w) = None -> rest = []))
  /\ (forall pre s r post,
         events (Close d w) = pre ++ EvClose s r :: post ->
         asFlusher s <> None ->
         exists pre', pre = pre' ++ [EvFlush s]).
Proof.
  split; [rewrite Close_as_perform; destruct d; reflexivity |].
  split; [apply Close_sink_only |]. split.
  - destruct (Close_runs_along d w) as [rest Hr]. exists rest.
    destruct d as [f ws cs]. exact Hr.
  - intros pre s r post E Hs.
    apply (@flush_first_before_close _ (Close_flush_first d w) pre s r post E).
    unfold flushable. destruct (asFlusher s); [reflexivity | contradiction].
Qed.

Lemma close_order_around_child cs c ws :
  In c cs ->
  exists pre post,
    flat_map (fun c => map CallFlush (flush_order c) ++ close_order c) cs
    ++ flat_map teardown_writer ws
    = pre ++ map CallFlush (flush_order c) ++ close_order c ++ post.
Proof.
  intros Hin. apply in_split in Hin. destruct Hin as [l1 [l2 ->]].
  exists (flat_map (fun c => map CallFlush (flush_order c) ++ close_order c) l1).
  exists (flat_map (fun c => map CallFlush (flush_order c) ++ close_order c) l2
          ++ flat_map teardown_writer ws).
  rewrite flat_map_app; simpl. rewrite <- !app_assoc. reflexivity.
Qed.

(** C10.  In a [Close] that returns no error, each child [c] is flushed as a
    whole by the node and then closed, its [Close] flushing again.  The
    teardown applied to the world is: what comes before [c], then the
    flushes of [c]'s whole subtree, then [c]'s own teardown, then the rest;
    a sink of [c]'s subtree that has a flush method has its flush applied in
    the second and again in the third.  In the log it is flushed at two
    places at least, and wherever it is closed two flushes of it have come
    before. *)
Theorem Close_flushes_children_twice
        (d : dispatcher) (w : World) (c : dispatcher) (s : Sink) :
  value (Close d w) = None ->
  In c (dispatchers d) ->
  In s (sinks c) ->
  asFlusher s <> None ->
  (exists t0 t1 w1,
      events (Close d w)
      = t0 ++ events (Flush c w1) ++ events (Close c (final (Flush c w1))) ++ t1
      /\ In (EvFlush s) (events (Flush c w1))
      /\ In (EvFlush s) (events (Close c (final (Flush c w1)))))
  /\ flushed_twice s (events (Close d w))
  /\ twice_before_close s (events (Close d w))
  /\ (exists pre post,
         close_order d
         = pre ++ map CallFlush (flush_order c) ++ close_order c ++ post
         /\ In s (flush_order c)
         /\ In (CallFlush s) (close_order c)
         /\ value (perform pre w) = None
         /\ value (perform (close_order c)
                           (run_flushes (flush_order c) (final (perform pre w))))
            = None
         /\ final (Close d w)
            = final (perform post
                       (final (perform (close_order c)
                                 (run_flushes (flush_order c)
                                              (final (perform pre w))))))
         /\ events (Close d w)
            = events (perform pre w)
              ++ map EvFlush (flush_order c)
              ++ events (perform (close_order c)
                                 (run_flushes (flush_order c) (final (perform pre w))))
              ++ events (perform post
                           (final (perform (close_order c)
                                     (run_flushes (flush_order c)
                                                  (final (perform pre w))))))).
Proof.
  intros Hv Hc Hs Hfl.
  assert (Hf : flushable s = true).
  { unfold flushable. destruct (asFlusher s); [reflexivity | contradiction]. }
  split; [| split; [| split]].
  - destruct d as [f ws cs]; cbn [dispatchers] in Hc.
    destruct (value (forRangeErr (closeChild Close) cs w)) as [e|] eqn:E.
    { destruct (Close_children_failed f ws cs w E) as [Hv' _]. congruence. }
    destruct (Close_children_done f ws cs w E) as [_ [_ He]].
    destruct (children_visit cs c Hc w E) as [t0 [t1 [w1 [Ev Hcv]]]].
    exists t0, (t1 ++ events (forRangeErr closeWriter ws
                                          (final (forRangeErr (closeChild Close) cs w)))), w1.
    split; [rewrite He, Ev, <- !app_assoc; reflexivity |].
    split; [apply Flush_flushes; assumption |].
    apply Close_flushes_all; assumption.
  - destruct d as [f ws cs]; cbn [dispatchers] in Hc.
    destruct (value (forRangeErr (closeChild Close) cs w)) as [e|] eqn:E.
    { destruct (Close_children_failed f ws cs w E) as [Hv' _]. congruence. }
    destruct (Close_children_done f ws cs w E) as [_ [_ He]].
    destruct (children_visit cs c Hc w E) as [t0 [t1 [w1 [Ev Hcv]]]].
    rewrite He, Ev. apply flushed_twice_right, flushed_twice_left.
    rewrite app_assoc. apply flushed_twice_right, flushed_twice_in.
    + apply Flush_flushes; assumption.
    + apply Close_flushes_all; assumption.
  - destruct d as [f ws cs]; cbn [dispatchers] in Hc.
    destruct (value (forRangeErr (closeChild Close) cs w)) as [e|] eqn:E.
    { destruct (Close_children_failed f ws cs w E) as [Hv' _]. congruence. }
    destruct (Close_children_done f ws cs w E) as [_ [_ He]].
    destruct (children_visit cs c Hc w E) as [t0 [t1 [w1 [Ev Hcv]]]].
    rewrite He. intros pre r post Epre. apply app_eq_split in Epre.
    destruct Epre as [[l [Ea _]] | [l [-> _]]].
    + exact (@children_twice cs s Hf w pre r l Ea).
    + apply flushed_twice_right. rewrite Ev. apply flushed_twice_left.
      rewrite app_assoc. apply flushed_twice_right, flushed_twice_in.
      * apply Flush_flushes; assumption.
      * apply Close_flushes_all; assumption.
  - rewrite Close_as_perform in Hv |- *.
    destruct d as [f ws cs]; cbn [dispatchers] in Hc. simpl close_order in *.
    destruct (close_order_around_child cs c ws Hc) as [pre [post E]].
    exists pre, post. rewrite E in Hv |- *.
    split; [reflexivity |].
    split; [apply flush_order_sinks; split; assumption |].
    split; [apply close_order_flushes; assumption |].
    destruct (perform_app _ _ _ Hv) as [H1 [H2 [F1 E1]]].
    destruct (perform_app _ _ _ H2) as [_ [H3 [F2 E2]]].
    destruct (perform_app _ _ _ H3) as [H4 [_ [F3 E3]]].
    rewrite (perform_flushes (flush_order_all_flushable c)) in *.
    cbn [value final events] in *.
    split; [exact H1 |]. split; [exact H4 |].
    split; [rewrite F1, F2, F3; reflexivity |].
    rewrite E1, E2, E3. reflexivity.
Qed.


(** ** Calling again *)

Lemma invoke_on_outcome d c w :
  invoke_on d c w = mkOutcome d (final (invoke d c w)) (events (invoke d c w)).
Proof. unfold invoke_on, bind; simpl. rewrite app_nil_r. reflexivity. Qed.

Lemma serve_as_history d calls :
  forall w,
    serve d calls w
    = mkOutcome d (final (history d calls w)) (events (history d calls w)).
Proof.
  unfold history. induction calls as [|c calls IH]; intros w; [reflexivity |].
  change (serve d (c :: calls) w)
    with (bind (invoke_on d c) (fun d' => serve d' calls) w).
  change (forRange (invoke d) (c :: calls) w)
    with (bind (invoke d c) (fun _ => forRange (invoke d) calls) w).
  unfold bind. rewrite invoke_on_outcome. cbn [value final events].
  rewrite IH. reflexivity.
Qed.

(** C9, as the code has it.  A call of [Dispatch], [Flush] or [Close]
    leaves the node as it was: after any history of such calls the node
    handed on is the node the history started with, formatter, writers and
    children.  Nothing in it records a close, so after any history, and so
    after a [Close] that returned no error, every method does on the world
    it finds what it does on a fresh node: [Dispatch] writes to all of
    [dispatch_order d], [Flush] applies the flushes of [flush_order d], and
    [Close] applies the teardown of [close_order d] from its first call on,
    making at least one call when there is any.  The node neither rejects
    nor skips it; it goes through every sink again when no sink's close
    returns an error, and stops at the first close that does. *)
Theorem node_keeps_no_state (d : dispatcher) (calls : list method) (w : World) :
  value (serve d calls w) = d
  /\ formatter (value (serve d calls w)) = formatter d
  /\ writers (value (serve d calls w)) = writers d
  /\ dispatchers (value (serve d calls w)) = dispatchers d
  /\ final (serve d calls w) = final (history d calls w)
  /\ events (serve d calls w) = events (history d calls w)
  /\ (forall m l c ef,
         Dispatch d m l c ef (final (history d calls w))
         = mkOutcome tt
                     (deliveries_world m l c ef (dispatch_order d)
                                       (final (history d calls w)))
                     (deliveries_log m l c ef (dispatch_order d)
                                     (final (history d calls w))))
  /\ final (Flush d (final (history d calls w)))
     = run_flushes (flush_order d) (final (history d calls w))
  /\ events (Flush d (final (history d calls w))) = map EvFlush (flush_order d)
  /\ Close d (final (history d calls w))
     = perform (close_order d) (final (history d calls w))
  /\ runs_along (Close d (final (history d calls w))) (close_order d)
  /\ fail_fast (Close d (final (history d calls w)))
  /\ (close_order d <> [] -> events (Close d (final (history d calls w))) <> [])
  /\ (value (Close d w) = None ->
      final (history d [DoClose] w) = final (Close d w)
      /\ sink_calls (events (Close d w)) = close_order d
      /\ Close d (final (Close d w)) = perform (close_order d) (final (Close d w))
      /\ runs_along (Close d (final (Close d w))) (close_order d)
      /\ fail_fast (Close d (final (Close d w)))
      /\ (close_order d <> [] -> events (Close d (final (Close d w))) <> [])
      /\ (value (Close d (final (Close d w))) = None ->
          sink_calls (events (Close d (final (Close d w))))
          = sink_calls (events (Close d w)))).
Proof.
  rewrite serve_as_history. cbn [value final events].
  split; [reflexivity |]. split; [reflexivity |]. split; [reflexivity |].
  split; [reflexivity |]. split; [reflexivity |]. split; [reflexivity |].
  split; [intros; apply Dispatch_as_deliveries |].
  split; [apply Flush_final |].
  split; [apply Flush_events |].
  split; [apply Close_as_perform |].
  split; [apply Close_runs_along |].
  split; [apply Close_stops_at_failure |].
  split.
  { apply runs_along_nonempty; [apply Close_runs_along | apply Close_stops_at_failure]. }
  intros Hv.
  assert (H1 : sink_calls (events (Close d w)) = close_order d)
    by (apply Close_complete_calls; exact Hv).
  split; [reflexivity |]. split; [exact H1 |].
  split; [apply Close_as_perform |].
  split; [apply Close_runs_along |].
  split; [apply Close_stops_at_failure |].
  split.
  { apply runs_along_nonempty; [apply Close_runs_along | apply Close_stops_at_failure]. }
  intros Hv2. rewrite H1. apply Close_complete_calls. exact Hv2.
Qed.

(** ** Counting the calls on one sink *)

Section PerSinkCounts.
Variable Sink_eq_dec : forall x y : Sink, {x = y} + {x <> y}.

Lemma count_flushes_of s l :
  List.length (filter (is_flush_of Sink_eq_dec s) (map CallFlush l))
  = count_occ Sink_eq_dec l s.
Proof.
  induction l as [|a l IH]; simpl; [reflexivity |].
  destruct (Sink_eq_dec a s); simpl; rewrite IH; reflexivity.
Qed.

Lemma count_closes_of_flushes s l :
  List.length (filter (is_close_of Sink_eq_dec s) (map CallFlush l)) = 0.
Proof. induction l as [|a l IH]; simpl; [reflexivity | exact IH]. Qed.

Lemma count_occ_filter (p : Sink -> bool) s l :
  count_occ Sink_eq_dec (filter p l) s
  = if p s then count_occ Sink_eq_dec l s else 0.
Proof.
  induction l as [|a l IH]; simpl; [destruct (p s); reflexivity |].
  destruct (p a) eqn:Ea; simpl; destruct (Sink_eq_dec a s) as [E|E]; rewrite IH.
  - subst a. rewrite Ea. reflexivity.
  - reflexivity.
  - subst a. rewrite Ea. reflexivity.
  - reflexivity.
Qed.

Lemma count_own_flushes s ws :
  List.length (filter (is_flush_of Sink_eq_dec s) (flat_map teardown_writer ws))
  = count_occ Sink_eq_dec (filter flushable (map FormattedWriter_Writer ws)) s.
Proof.
  induction ws as [|fw ws IH]; simpl; [reflexivity |].
  rewrite count_app, IH. unfold teardown_writer.
  destruct (flushable (FormattedWriter_Writer fw));
    destruct (closable (FormattedWriter_Writer fw)); simpl;
    destruct (Sink_eq_dec (FormattedWriter_Writer fw) s); reflexivity.
Qed.

Lemma count_own_closes s ws :
  List.length (filter (is_close_of Sink_eq_dec s) (flat_map teardown_writer ws))
  = count_occ Sink_eq_dec (filter closable (map FormattedWriter_Writer ws)) s.
Proof.
  induction ws as [|fw ws IH]; simpl; [reflexivity |].
  rewrite count_app, IH. unfold teardown_writer.
  destruct (flushable (FormattedWriter_Writer fw));
    destruct (closable (FormattedWriter_Writer fw)); simpl;
    destruct (Sink_eq_dec (FormattedWriter_Writer fw) s); reflexivity.
Qed.

Lemma count_flushes_close_order s d :
  flushable s = true ->
  forall k,
    List.length (filter (is_flush_of Sink_eq_dec s) (close_order d))
    + k * count_occ Sink_eq_dec (flush_order d) s
    = flush_weight Sink_eq_dec s k d.
Proof.
  intros Hf. induction d as [f ws cs IH] using dispatcher_tree_ind; intros k.
  simpl close_order. simpl flush_order. cbn [flush_weight dispatchers].
  unfold own_uses; cbn [writers].
  rewrite count_app, count_own_flushes, count_occ_app, count_occ_filter, Hf.
  set (own := count_occ Sink_eq_dec (map FormattedWriter_Writer ws) s).
  assert (Hcs : List.length
                  (filter (is_flush_of Sink_eq_dec s)
                          (flat_map (fun c => map CallFlush (flush_order c) ++ close_order c) cs))
                + k * count_occ Sink_eq_dec (flat_map flush_order cs) s
                = list_sum (map (flush_weight Sink_eq_dec s (S k)) cs)).
  { clear own. induction IH as [|c cs Hc _ IHcs]; [simpl; lia |].
    cbn [flat_map map]. simpl list_sum.
    rewrite !count_app, count_flushes_of, count_occ_app.
    specialize (Hc (S k)). nia. }
  nia.
Qed.

Lemma count_closes_close_order s d :
  closable s = true ->
  List.length (filter (is_close_of Sink_eq_dec s) (close_order d))
  = count_occ Sink_eq_dec (sinks d) s.
Proof.
  intros Hc. induction d as [f ws cs IH] using dispatcher_tree_ind.
  simpl close_order. simpl sinks.
  rewrite count_app, count_own_closes, count_occ_app, count_occ_filter, Hc, Nat.add_comm.
  f_equal. induction IH as [|c cs Hcc _ IHcs]; [reflexivity |].
  simpl. rewrite !count_app, count_closes_of_flushes, Hcc, count_occ_app, IHcs.
  reflexivity.
Qed.
End PerSinkCounts.

(** X5.  A [Close] that returns no error applies the whole teardown of
    [close_order].  In it a sink that can be closed is closed once for each
    writer on it in the tree, while a sink that can be flushed is flushed
    [k + 1] times for each writer on it that lies [k] levels below the
    closed node ([flush_weight]). *)
Theorem Close_call_counts
        (Sink_eq_dec : forall x y : Sink, {x = y} + {x <> y})
        (d : dispatcher) (w : World) (s : Sink) :
  value (Close d w) = None ->
  Close d w = perform (close_order d) w
  /\ sink_calls (events (Close d w)) = close_order d
  /\ (asCloser s <> None ->
      List.length (filter (is_close_of Sink_eq_dec s) (sink_calls (events (Close d w))))
      = count_occ Sink_eq_dec (sinks d) s)
  /\ (asFlusher s <> None ->
      List.length (filter (is_flush_of Sink_eq_dec s) (sink_calls (events (Close d w))))
      = flush_weight Sink_eq_dec s 0 d).
Proof.
  intros Hv. split; [apply Close_as_perform |].
  rewrite (Close_complete_calls d w Hv). split; [reflexivity |]. split.
  - intros Hc. apply count_closes_close_order.
    unfold closable. destruct (asCloser s); [reflexivity | contradiction].
  - intros Hf.
    assert (Hfl : flushable s = true).
    { unfold flushable. destruct (asFlusher s); [reflexivity | contradiction]. }
    pose proof (count_flushes_close_order Sink_eq_dec s d Hfl 0) as H0. lia.
Qed.

(** X10.  A tree made by [createDispatcher], its children made that way
    too, has at least one writer somewhere, so every event dispatched into it
    is written at least once: [Dispatch] applies the write of the first
    writer of [dispatch_order] to the world it is called in (and the
    callback if that write fails) before it goes on with the others. *)
Theorem constructed_tree_always_writes
        (d : dispatcher) (m : string) (l : LogLevel) (c : LogContext)
        (ef : error -> World -> World) (w : World) :
  constructed d ->
  dispatch_order d <> []
  /\ written (events (Dispatch d m l c ef w)) <> []
  /\ exists wr rest,
      dispatch_order d = wr :: rest
      /\ final (Dispatch d m l c ef w)
         = deliveries_world m l c ef rest (write_step m l c ef w wr)
      /\ events (Dispatch d m l c ef w)
         = write_log m l c w wr
           ++ deliveries_log m l c ef rest (write_step m l c ef w wr).
Proof.
  intros Hd. pose proof (constructed_has_writer Hd) as Hne.
  split; [exact Hne |]. rewrite Dispatch_written, Dispatch_as_deliveries.
  destruct (dispatch_order d) as [|wr rest]; [contradiction |].
  split; [discriminate |]. exists wr, rest. split; [reflexivity |].
  split; reflexivity.
Qed.

End Theory.

(** ** The theorems at work on the concrete collaborators *)

Section Instances.
Local Existing Instance ex_externals.

Lemma Close_fails_fast_witness :
  value (Close ex_bad_child []) = Some "close failed"
  /\ events (Close ex_bad_child [])
     = [EvFlush 3; EvFlush 3; EvClose 3 None;
        EvFlush 7; EvFlush 7; EvClose 7 (Some "close failed")]
  /\ value (Close ex_bad_writer []) = Some "close failed"
  /\ events (Close ex_bad_writer [])
     = [EvFlush 3; EvFlush 3; EvClose 3 None; EvFlush 2; EvClose 2 None;
        EvFlush 7; EvClose 7 (Some "close failed")].
Proof.
  destruct (proj1 (proj2 (proj2 (@Close_fails_fast ex_externals ex_bad_child [])))
                  [ex_leaf 3] (ex_leaf 7) [ex_leaf 4] "close failed"
                  eq_refl eq_refl eq_refl) as [Hv [_ He]].
  destruct (proj2 (proj2 (proj2 (@Close_fails_fast ex_externals ex_bad_writer [])))
                  [2] 7 [4] "close failed"
                  eq_refl eq_refl eq_refl) as [Hv' [_ He']].
  split; [exact Hv |]. split; [exact He |]. split; [exact Hv' | exact He'].
Defined.

Lemma createDispatcher_classifies_witness :
  ex_receivers <> []
  /\ exists d,
      createDispatcher (Some "F") (Some ex_receivers) = Ok d
      /\ writers d = [1; 2]
      /\ dispatchers d = [ex_leaf 3].
Proof.
  assert (Hne : ex_receivers <> []) by discriminate.
  split; [exact Hne |].
  destruct (proj2 (proj2 (proj2 (proj2 (proj2 (proj2 (proj2 (proj2
              (@createDispatcher_classifies ex_externals "F"))))))))
              ex_receivers
              [@StoredWriter ex_externals 1; StoredChild (ex_leaf 3);
               @StoredWriter ex_externals 2] Hne)
    as [d [Hd [_ [Hw [Hc _]]]]].
  - repeat constructor.
  - exists d. split; [exact Hd |]. split; [exact Hw | exact Hc].
Defined.

Lemma Flush_children_then_writers_witness :
  In (EvFlush 3) (events (Flush ex_parent []))
  /\ In 3 (sinks ex_parent) /\ asFlusher 3 <> None.
Proof.
  assert (Hin : In (EvFlush 3) (events (Flush ex_parent [])))
    by (left; reflexivity).
  split; [exact Hin |].
  exact (proj1 (proj2 (proj2 (@Flush_children_then_writers ex_externals ex_parent [])))
               3 Hin).
Defined.

Lemma Flush_is_silent_witness :
  (forall s, In s (sinks ex_unflushable) -> asFlusher s = None)
  /\ final (Flush ex_unflushable ["before"]) = ["before"]
  /\ events (Flush ex_unflushable ["before"]) = [].
Proof.
  assert (Hnone : forall s, In s (sinks ex_unflushable) -> asFlusher s = None).
  { intros s [<- | [<- | []]]; reflexivity. }
  split; [exact Hnone |].
  exact (proj2 (proj2 (proj2 (proj2
           (@Flush_is_silent ex_externals ex_unflushable ["before"])))) Hnone).
Defined.

Lemma dispatcher_String_layout_witness :
  descendant ex_grandchild ex_chain
  /\ exists pre post,
      dispatcher_String ex_chain
      = (pre ++ "        ->" ++ dispatcher_String ex_grandchild ++ post)%string.
Proof.
  assert (Hd : descendant ex_grandchild ex_chain).
  { apply descendant_deeper with (c' := ex_child).
    - apply descendant_child. left. reflexivity.
    - left. reflexivity. }
  split; [exact Hd |].
  exact (proj2 (proj2 (proj2 (proj2 (proj2
           (@dispatcher_String_layout ex_externals ex_chain))))) _ Hd).
Defined.

(** C8, as stated, at the chain of root, child and grandchild: the lines on
    which the three descriptions begin are indented by 0, 8 and 8 spaces, so
    the grandchild is indented no deeper than the child. *)
Lemma String_indentation_does_not_increase :
  createDispatcher (Some "F0") (Some [mkReceiver None None (Some ex_child)])
  = Ok ex_chain
  /\ header_indents (dispatcher_String ex_chain) = [0; 8; 8]
  /\ strictly_increasing (header_indents (dispatcher_String ex_chain)) = false.
Proof. repeat split; vm_compute; reflexivity. Qed.

Lemma Dispatch_is_flat_loop_witness :
  dispatch_order ex_tree = dispatch_order ex_flat
  /\ Dispatch ex_tree "a" 0 tt ex_errorFunc []
     = Dispatch ex_flat "a" 0 tt ex_errorFunc [].
Proof.
  assert (E : dispatch_order ex_tree = dispatch_order ex_flat)
    by reflexivity.
  split; [exact E |].
  exact (proj2 (@Dispatch_is_flat_loop ex_externals ex_tree
                  ex_flat "a" 0 tt ex_errorFunc []) E).
Defined.

Lemma Dispatch_without_failures_ignores_callback_witness :
  failures (events (Dispatch ex_even "a" 0 tt ex_errorFunc [])) = []
  /\ Dispatch ex_even "a" 0 tt (fun _ _ => []) []
     = Dispatch ex_even "a" 0 tt ex_errorFunc [].
Proof.
  assert (Hf : failures (events (Dispatch ex_even "a" 0 tt ex_errorFunc [])) = [])
    by reflexivity.
  split; [exact Hf |].
  exact (proj1 (@Dispatch_without_failures_ignores_callback ex_externals ex_even
                  "a" 0 tt ex_errorFunc (fun _ _ => []) [] Hf)).
Defined.

Lemma Close_is_flat_program_witness :
  close_order ex_parent = close_order ex_renamed
  /\ Close ex_parent [] = Close ex_renamed [].
Proof.
  assert (E : close_order ex_parent = close_order ex_renamed) by reflexivity.
  split; [exact E |].
  exact (proj2 (@Close_is_flat_program ex_externals ex_parent ex_renamed []) E).
Defined.

Lemma Close_without_capabilities_witness :
  (forall s, In s (sinks (ex_leaf 25)) -> asFlusher s = None /\ asCloser s = None)
  /\ Close (ex_leaf 25) ["before"] = mkOutcome None ["before"] [].
Proof.
  assert (Hnone : forall s, In s (sinks (ex_leaf 25))
                            -> asFlusher s = None /\ asCloser s = None).
  { intros s [<- | []]. split; reflexivity. }
  split; [exact Hnone |].
  exact (@Close_without_capabilities ex_externals (ex_leaf 25) ["before"] Hnone).
Defined.

Lemma createDispatcher_success_means_witness :
  createDispatcher (Some "F") (Some ex_receivers)
  = Ok (mkDispatcher "F" [1; 2] [ex_leaf 3])
  /\ exists f l,
      Some "F" = Some f /\ Some ex_receivers = Some l /\ l <> []
      /\ formatter (mkDispatcher "F" [1; 2] [ex_leaf 3]) = f
      /\ Forall (fun r => (writer_like r || dispatcher_like r)%bool = true) l
      /\ List.length (writers (mkDispatcher "F" [1; 2] [ex_leaf 3]))
         + List.length (dispatchers (mkDispatcher "F" [1; 2] [ex_leaf 3]))
         = List.length l
      /\ (writers (mkDispatcher "F" [1; 2] [ex_leaf 3]) <> []
          \/ dispatchers (mkDispatcher "F" [1; 2] [ex_leaf 3]) <> []).
Proof.
  assert (Hd : createDispatcher (Some "F") (Some ex_receivers)
               = Ok (mkDispatcher "F" [1; 2] [ex_leaf 3])) by reflexivity.
  split; [exact Hd |].
  exact (@createDispatcher_success_means ex_externals _ _ _ Hd).
Defined.

Lemma createDispatcher_failure_means_witness :
  createDispatcher (Some "F")
                   (Some ex_unsupported)
  = Err UnsupportedReceiverType
  /\ ((Some "F" = None /\ UnsupportedReceiverType = NilFormatter)
      \/ (Some "F" <> None
          /\ (Some ex_unsupported = None
              \/ Some ex_unsupported = Some [])
          /\ UnsupportedReceiverType = EmptyReceivers)
      \/ (exists f pre r post sts,
             Some "F" = Some f
             /\ Some ex_unsupported
                = Some (pre ++ r :: post)
             /\ Forall2 (fun r st => store_of f r = Ok st) pre sts
             /\ asFormattedWriter r = None
             /\ ((asIoWriter r = None /\ asDispatcherInterface r = None
                  /\ UnsupportedReceiverType = UnsupportedReceiverType)
                 \/ (exists s, asIoWriter r = Some s
                               /\ NewFormattedWriter s f = Err UnsupportedReceiverType)))).
Proof.
  assert (He : createDispatcher (Some "F")
                 (Some ex_unsupported)
               = Err UnsupportedReceiverType) by reflexivity.
  split; [exact He |].
  exact (@createDispatcher_failure_means ex_externals _ _ _ He).
Defined.

Lemma createDispatcher_forgets_interleaving_witness :
  createDispatcher (Some "F") (Some ex_receivers)
  = Ok (mkDispatcher "F" [1; 2] [ex_leaf 3])
  /\ createDispatcher (Some "F")
                      (Some (filter writer_like ex_receivers
                             ++ filter dispatcher_like ex_receivers))
     = Ok (mkDispatcher "F" [1; 2] [ex_leaf 3]).
Proof.
  assert (Hd : createDispatcher (Some "F") (Some ex_receivers)
               = Ok (mkDispatcher "F" [1; 2] [ex_leaf 3])) by reflexivity.
  split; [exact Hd |].
  exact (@createDispatcher_forgets_interleaving ex_externals _ _ _ Hd).
Defined.

Lemma dispatcher_String_mentions_every_writer_witness :
  In 2 (dispatch_order ex_chain)
  /\ exists pre post,
      dispatcher_String ex_chain
      = (pre ++ "        ->" ++ FormattedWriter_String 2 ++ nl ++ post)%string.
Proof.
  assert (Hin : In 2 (dispatch_order ex_chain)) by (left; reflexivity).
  split; [exact Hin |].
  exact (@dispatcher_String_mentions_every_writer ex_externals ex_chain 2 Hin).
Defined.

Lemma SyncLogger_Close_hides_failure_witness :
  value (Close ex_bad_child []) = Some "close failed"
  /\ value (SyncLogger_Close ex_logger []) = tt
  /\ exists rest,
      sink_calls (events (SyncLogger_Close ex_logger []))
      ++ rest
      = close_order ex_bad_child.
Proof.
  assert (Hv : value (Close ex_bad_child []) = Some "close failed") by reflexivity.
  split; [exact Hv |]. split; [reflexivity |].
  exact (proj2 (proj2 (@SyncLogger_Close_hides_failure ex_externals
                         ex_logger []
                         "close failed" Hv))).
Defined.

Lemma Dispatch_isolates_failures_witness :
  Permutation [1; 2] (dispatch_order ex_tree)
  /\ callback_count (events (dispatchAll ex_tree ex_errorFunc ex_msgs [])) = 2
  /\ received_by 2 (events (dispatchAll ex_tree ex_errorFunc ex_msgs [])) = ex_msgs
  /\ final (dispatchAll ex_tree ex_errorFunc ex_msgs [])
     = ["write failed"; "a"; "write failed"; "b"].
Proof.
  assert (HP : Permutation [1; 2] (dispatch_order ex_tree))
    by apply Permutation_refl.
  split; [exact HP |].
  destruct (proj2 (@Dispatch_isolates_failures ex_externals ex_tree ex_errorFunc)
                  1 2 ex_msgs [] HP) as [Hn [Hr [Hw _]]].
  - intros m l c w'. simpl. discriminate.
  - intros m l c w'. reflexivity.
  - split; [exact Hn |]. split; [exact Hr | exact Hw].
Defined.

Lemma Close_children_then_writers_witness :
  events (Close ex_parent [])
  = [EvFlush 3; EvFlush 3; EvClose 3 None; EvFlush 2] ++ EvClose 2 None :: []
  /\ asFlusher 2 <> None
  /\ (exists pre', [EvFlush 3; EvFlush 3; EvClose 3 None; EvFlush 2] = pre' ++ [EvFlush 2])
  /\ Close ex_parent []
     = mkOutcome None ["flush"; "flush"; "close"; "flush"; "close"]
                 [EvFlush 3; EvFlush 3; EvClose 3 None; EvFlush 2; EvClose 2 None].
Proof.
  assert (E : events (Close ex_parent [])
              = [EvFlush 3; EvFlush 3; EvClose 3 None; EvFlush 2] ++ EvClose 2 None :: [])
    by reflexivity.
  assert (Hs : asFlusher 2 <> None) by (simpl; discriminate).
  split; [exact E |]. split; [exact Hs |]. split.
  - exact (proj2 (proj2 (proj2 (@Close_children_then_writers ex_externals ex_parent [])))
                 _ _ _ _ E Hs).
  - exact (proj1 (@Close_children_then_writers ex_externals ex_parent [])).
Defined.

Lemma node_keeps_no_state_witness :
  value (Close ex_parent []) = None
  /\ close_order ex_parent <> []
  /\ value (serve ex_parent [DoClose; DoFlush] []) = ex_parent
  /\ events (Close ex_parent (final (history ex_parent [DoClose; DoFlush] []))) <> []
  /\ Close ex_parent (final (Close ex_parent []))
     = mkOutcome None
                 ["flush"; "flush"; "close"; "flush"; "close";
                  "flush"; "flush"; "close"; "flush"; "close"]
                 [EvFlush 3; EvFlush 3; EvClose 3 None; EvFlush 2; EvClose 2 None]
  /\ sink_calls (events (Close ex_parent (final (Close ex_parent []))))
     = sink_calls (events (Close ex_parent [])).
Proof.
  assert (Hv : value (Close ex_parent []) = None) by reflexivity.
  assert (Hne : close_order ex_parent <> []) by discriminate.
  split; [exact Hv |]. split; [exact Hne |].
  pose proof (@node_keeps_no_state ex_externals ex_parent [DoClose; DoFlush] [])
    as [Hsame [_ [_ [_ [_ [_ [_ [_ [_ [_ [_ [_ [Hstart Hagain]]]]]]]]]]]]].
  split; [exact Hsame |]. split; [exact (Hstart Hne) |].
  destruct (Hagain Hv) as [_ [_ [Hperf [_ [_ [_ Hcalls]]]]]].
  split; [exact Hperf | exact (Hcalls eq_refl)].
Defined.

Lemma Close_flushes_children_twice_witness :
  value (Close ex_parent []) = None
  /\ flushed_twice 3 (events (Close ex_parent []))
  /\ twice_before_close 3 (events (Close ex_parent []))
  /\ exists pre post,
      close_order ex_parent
      = pre ++ map CallFlush (flush_order (ex_leaf 3)) ++ close_order (ex_leaf 3) ++ post
      /\ final (Close ex_parent [])
         = final (perform post
                    (final (perform (close_order (ex_leaf 3))
                              (run_flushes (flush_order (ex_leaf 3))
                                           (final (perform pre []))))))
      /\ final (Close ex_parent []) = ["flush"; "flush"; "close"; "flush"; "close"].
Proof.
  assert (Hv : value (Close ex_parent []) = None) by reflexivity.
  split; [exact Hv |].
  assert (Hs : asFlusher 3 <> None) by (simpl; discriminate).
  destruct (@Close_flushes_children_twice ex_externals ex_parent []
              (ex_leaf 3) 3 Hv (or_introl eq_refl) (or_introl eq_refl) Hs)
    as [_ [H2 [H3 [pre [post [E [_ [_ [_ [_ [Hf _]]]]]]]]]]].
  split; [exact H2 |]. split; [exact H3 |].
  exists pre, post. split; [exact E |]. split; [exact Hf | reflexivity].
Defined.

Lemma Close_call_counts_witness :
  value (Close ex_chain []) = None
  /\ asFlusher 2 <> None
  /\ List.length (filter (is_flush_of Nat.eq_dec 2)
                         (sink_calls (events (Close ex_chain [])))) = 3
  /\ List.length (filter (is_close_of Nat.eq_dec 2)
                         (sink_calls (events (Close ex_chain [])))) = 1
  /\ Close ex_chain []
     = mkOutcome None ["flush"; "flush"; "flush"; "close"]
                 [EvFlush 2; EvFlush 2; EvFlush 2; EvClose 2 None].
Proof.
  assert (Hv : value (Close ex_chain []) = None) by reflexivity.
  assert (Hs : asFlusher 2 <> None) by (simpl; discriminate).
  assert (Hc : asCloser 2 <> None) by (simpl; discriminate).
  split; [exact Hv |]. split; [exact Hs |].
  destruct (@Close_call_counts ex_externals Nat.eq_dec ex_chain [] 2 Hv)
    as [Hp [_ [Hcl Hfl]]].
  split; [exact (Hfl Hs) |]. split; [exact (Hcl Hc) | exact Hp].
Defined.

Lemma constructed_tree_always_writes_witness :
  constructed ex_tree
  /\ written (events (Dispatch ex_tree "a" 0 tt ex_errorFunc [])) <> []
  /\ final (Dispatch ex_tree "a" 0 tt ex_errorFunc []) = ["write failed"; "a"].
Proof.
  assert (Hleaf : constructed (ex_leaf 2)).
  { apply constructed_by with (f := "leaf")
                              (receivers := [ex_writer_receiver 2]).
    - reflexivity.
    - intros c []. }
  assert (Hd : constructed ex_tree).
  { apply constructed_by with (f := "root")
                              (receivers := [ex_child_receiver (ex_leaf 2);
                                             ex_writer_receiver 1]).
    - reflexivity.
    - intros c [<- | []]. exact Hleaf. }
  split; [exact Hd |].
  destruct (@constructed_tree_always_writes ex_externals ex_tree
              "a" 0 tt ex_errorFunc [] Hd) as [_ [Hw [wr [rest [E [Hf _]]]]]].
  split; [exact Hw |].
  change (dispatch_order ex_tree) with [1; 2] in E.
  inversion E; subst wr rest. exact Hf.
Defined.

End Instances.

Section StrictInstances.
Local Existing Instance ex_strict_externals.

(** C9, as stated, at sinks that refuse a second close: the first [Close]
    of the node returns no error after the full teardown; the second is
    stopped by the first sink it tries to close again and does not go
    through every sink. *)
Lemma second_Close_stops_at_closed_sink :
  value (Close ex_strict_parent []) = None
  /\ sink_calls (events (Close ex_strict_parent [])) = close_order ex_strict_parent
  /\ value (Close ex_strict_parent (final (Close ex_strict_parent [])))
     = Some "file already closed"
  /\ sink_calls (events (Close ex_strict_parent (final (Close ex_strict_parent []))))
     = [CallFlush 3; CallFlush 3; CallClose 3]
  /\ sink_calls (events (Close ex_strict_parent (final (Close ex_strict_parent []))))
     <> close_order ex_strict_parent.
Proof.
  split; [reflexivity |]. split; [reflexivity |]. split; [reflexivity |].
  split; [reflexivity |]. discriminate.
Qed.

End StrictInstances.
